(** * Map console: snapshot reconciler, click controller, density renderer

    A shallow embedding of the dashboard's browser code: the agent-marker
    reconciler ([ws.onmessage]), the map click handler with its selection
    and infrastructure-placement variables, the infrastructure refresh
    ([loadInfrastructure]) and the density renderer ([drawHexes],
    [runPrediction]).

    A finite JavaScript number is a rational ([Qc]); [jsnum] adds [NaN]
    and the infinities.  Arithmetic on [jsnum] is that of IEEE doubles:
    the exact result rounded to the nearest double ([Double.round64]).
    The two zeros are not told apart.  Coordinates, and the weights in
    [Density], where only their order and position matter, are used as
    exact numbers; [Render] is the density renderer with its arithmetic in
    doubles.  Object property keys are strings, [Set] membership compares
    values without coercion.  Asynchronous work is split at its
    [await]/[then]: a handler is a function of the state it finds, and the
    settled result of a fetch is an argument of the continuation. *)

From Stdlib Require Import QArith Qcanon Qround Qpower Lqa.
From stdpp Require Import gmap strings list fin_maps sorting pretty numbers.

Local Open Scope Z_scope.
Local Open Scope string_scope.
Local Open Scope list_scope.

#[local] Set Warnings "-clear-no-such-hyp".

(** ** JavaScript values *)

Module Js.

(** A number as produced by [parseFloat]. *)
Inductive jsnum :=
| NaN
| Infinity (negative : bool)
| Num (q : Qc).

#[global] Instance jsnum_eq_dec : EqDecision jsnum.
Proof. solve_decision. Defined.

(** ToBoolean on numbers: [NaN] and zero are falsy. *)
Definition truthy_num (n : jsnum) : bool :=
  match n with
  | NaN => false
  | Infinity _ => true
  | Num q => negb (bool_decide (q = 0%Qc))
  end.

(** [x || d] on a number. *)
Definition or_num (x d : jsnum) : jsnum :=
  if truthy_num x then x else d.

(** [x || null] on a number. *)
Definition or_null (x : jsnum) : option jsnum :=
  if truthy_num x then Some x else None.

(** ToBoolean on an optional finite number ([undefined] is falsy). *)
Definition truthy_opt (x : option Qc) : bool :=
  match x with
  | Some q => negb (bool_decide (q = 0%Qc))
  | None => false
  end.

(** ToBoolean on an optional string ([undefined] and the empty string are falsy). *)
Definition truthy_str (x : option string) : bool :=
  match x with
  | Some s => negb (bool_decide (s = EmptyString))
  | None => false
  end.

(** An entity id as it comes out of [JSON.parse]: a number or a string. *)
Inductive jsid :=
| IdNum (n : Z)
| IdStr (s : string).

#[global] Instance jsid_eq_dec : EqDecision jsid.
Proof. solve_decision. Defined.

(** ToPropertyKey: the string under which [obj[id]] is stored; an integer
    id is written in decimal. *)
Definition to_key (i : jsid) : string :=
  match i with
  | IdNum n => pretty n
  | IdStr s => s
  end.

(** [Set.prototype.has] called with a string (the keys a [for..in]
    yields): SameValueZero, so a number in the set never matches. *)
Definition set_has_key (ids : list jsid) (k : string) : bool :=
  bool_decide (IdStr k ∈ ids).

(** Property names every plain object inherits from [Object.prototype]. *)
Definition proto_keys : list string :=
  [ "constructor"; "__proto__"; "hasOwnProperty"; "isPrototypeOf";
    "propertyIsEnumerable"; "toLocaleString"; "toString"; "valueOf";
    "__defineGetter__"; "__defineSetter__"; "__lookupGetter__";
    "__lookupSetter__" ].

End Js.

Import Js.

(** ** Double arithmetic *)

Module Double.

(** Two to the power [e]. *)
Definition pow2 (e : Z) : Q := (2 ^ e)%Q.

(** The integer part of the binary logarithm of a positive rational. *)
Definition ilog2 (x : Q) : Z :=
  let k := Z.log2 (Qnum x) - Z.log2 (Zpos (Qden x)) in
  if Qle_bool (pow2 k) x then k else k - 1.

(** The nearest integer, a tie going to the even one. *)
Definition rne (x : Q) : Z :=
  let f := Qfloor x in
  match (x - inject_Z f ?= 1 # 2)%Q with
  | Lt => f
  | Gt => f + 1
  | Eq => if Z.even f then f else f + 1
  end.

(** The exponent of the last place of a positive [x]: a double has a
    significand of 53 bits and no place below [2^-1074]. *)
Definition exponent (x : Q) : Z := Z.max (-1074) (ilog2 x - 52).

(** The nearest multiple of [2^exponent], for a positive [x]. *)
Definition round_pos (x : Q) : Q :=
  let e := exponent x in
  (inject_Z (rne (x / pow2 e)) * pow2 e)%Q.

(** Round to nearest, ties to even, the exponent range unbounded above. *)
Definition round_real (x : Q) : Q :=
  match (x ?= 0)%Q with
  | Eq => 0%Q
  | Gt => round_pos x
  | Lt => (- round_pos (- x))%Q
  end.

(** A rounded magnitude of [2^1024] or more overflows to an infinity. *)
Definition clip (r : Q) : jsnum :=
  if Qle_bool (pow2 1024) r then Infinity false
  else if Qle_bool r (- pow2 1024) then Infinity true
  else Num (Q2Qc (Qred r)).

(** The double a real result is stored as. *)
Definition round64 (x : Qc) : jsnum := clip (round_real x).

(** A number that is a double. *)
Definition is_double (x : Qc) : Prop := round64 x = Num x.

#[global] Instance is_double_dec x : Decision (is_double x).
Proof. unfold is_double. apply _. Defined.

(** The double a decimal literal or a JSON number denotes. *)
Definition double (x : Qc) : Qc :=
  match round64 x with Num r => r | _ => x end.


Definition of_Z (n : Z) : jsnum := Num (Qc_of_Z n).

Definition negative (q : Qc) : bool := bool_decide (q < 0)%Qc.

Definition fneg (x : jsnum) : jsnum :=
  match x with
  | NaN => NaN
  | Infinity s => Infinity (negb s)
  | Num q => Num (- q)%Qc
  end.

(** [x + y] *)
Definition fadd (x y : jsnum) : jsnum :=
  match x, y with
  | NaN, _ | _, NaN => NaN
  | Infinity s, Infinity s' => if Bool.eqb s s' then Infinity s else NaN
  | Infinity s, Num _ | Num _, Infinity s => Infinity s
  | Num a, Num b => round64 (a + b)%Qc
  end.

(** [x - y] *)
Definition fsub (x y : jsnum) : jsnum := fadd x (fneg y).

(** [x * y] *)
Definition fmul (x y : jsnum) : jsnum :=
  match x, y with
  | NaN, _ | _, NaN => NaN
  | Infinity s, Infinity s' => Infinity (xorb s s')
  | Infinity s, Num b | Num b, Infinity s =>
      if bool_decide (b = 0%Qc) then NaN else Infinity (xorb s (negative b))
  | Num a, Num b => round64 (a * b)%Qc
  end.

(** [x / y]; a zero divisor is taken as [+0]. *)
Definition fdiv (x y : jsnum) : jsnum :=
  match x, y with
  | NaN, _ | _, NaN => NaN
  | Infinity _, Infinity _ => NaN
  | Infinity s, Num b => Infinity (xorb s (negative b))
  | Num _, Infinity _ => of_Z 0
  | Num a, Num b =>
      if bool_decide (b = 0%Qc)
      then if bool_decide (a = 0%Qc) then NaN else Infinity (negative a)
      else round64 (a / b)%Qc
  end.

(** [x <= y] *)
Definition leb (x y : jsnum) : bool :=
  match x, y with
  | NaN, _ | _, NaN => false
  | Infinity true, _ => true
  | _, Infinity false => true
  | Infinity false, _ => false
  | _, Infinity true => false
  | Num a, Num b => bool_decide (a ≤ b)%Qc
  end.

Definition Math_max (x y : jsnum) : jsnum :=
  match x, y with
  | NaN, _ | _, NaN => NaN
  | _, _ => if leb x y then y else x
  end.

Definition Math_min (x y : jsnum) : jsnum :=
  match x, y with
  | NaN, _ | _, NaN => NaN
  | _, _ => if leb x y then x else y
  end.

(** [Math.round]: to the nearest integer, halves up. *)
Definition Math_round (x : jsnum) : jsnum :=
  match x with
  | Num q => of_Z (Qfloor (q + Q2Qc (1 # 2))%Qc)
  | _ => x
  end.

End Double.

(** ** Coordinates *)

Record LatLng := mkLatLng { lat : Qc; lng : Qc }.

#[global] Instance LatLng_eq_dec : EqDecision LatLng.
Proof. solve_decision. Defined.

(** ** SnapshotReconciler: [markerStyleFor] and [ws.onmessage] *)

Module Reconciler.

Record Agent := mkAgent {
  agent_id : jsid;
  agent_lat : Qc;
  agent_lon : Qc;
  agent_type : string;
  agent_phase : option string;
  agent_stop : bool
}.

(** The [color]/[fillColor] of the style; the other fields are the fixed [base]. *)
Definition markerStyleFor (a : Agent) : string :=
  if bool_decide (agent_type a = "event") then
    match agent_phase a with
    | Some "to_dest" => "#ff9800"
    | Some "dwelling" => "#e53935"
    | Some "exiting" => "#6a1b9a"
    | Some "settled" => "#2e7d32"
    | _ => "#ffb74d"
    end
  else if agent_stop a then "#0d47a1"
  else if bool_decide (agent_type a = "random") then "#2d6cdf"
  else "#1976d2".

(** A circle on the map: its centre [lat, lon] and its style. *)
Record Marker := mkMarker {
  marker_lat : Qc;
  marker_lon : Qc;
  marker_style : string
}.

(** Operations on render handles, in the order they are performed. *)
Inductive Op :=
| Create (k : string)
| Update (k : string)
| Destroy (k : string).

#[global] Instance Op_eq_dec : EqDecision Op.
Proof. solve_decision. Defined.

Definition is_create (o : Op) : bool := match o with Create _ => true | _ => false end.
Definition is_destroy (o : Op) : bool := match o with Destroy _ => true | _ => false end.

(** What [agentMarkers[k]] evaluates to. *)
Inductive Lookup :=
| Own (m : Marker)
| Inherited
| Absent.

Definition get (markers : gmap string Marker) (k : string) : Lookup :=
  match markers !! k with
  | Some m => Own m
  | None => if bool_decide (k ∈ proto_keys) then Inherited else Absent
  end.

(** The reconciler's store with the log of handle operations. *)
Record Store := mkStore {
  agentMarkers : gmap string Marker;
  ops : list Op
}.

(** The outcome of a handler: it returns, or a [TypeError] leaves the
    store as it was when the exception was thrown. *)
Inductive Outcome :=
| Returned (s : Store)
| Threw (s : Store).

Definition outcome_store (o : Outcome) : Store :=
  match o with Returned s | Threw s => s end.

(** The body of [agents.forEach]: update the marker in place or create it.
    An inherited property is truthy but has no [setLatLng]. *)
Definition upsert (a : Agent) (s : Store) : Outcome :=
  let k := to_key (agent_id a) in
  let m := mkMarker (agent_lat a) (agent_lon a) (markerStyleFor a) in
  match get (agentMarkers s) k with
  | Own _ => Returned (mkStore (<[k := m]> (agentMarkers s)) (ops s ++ [Update k]))
  | Inherited => Threw s
  | Absent => Returned (mkStore (<[k := m]> (agentMarkers s)) (ops s ++ [Create k]))
  end.

Fixpoint forEach_upsert (agents : list Agent) (s : Store) : Outcome :=
  match agents with
  | [] => Returned s
  | a :: rest =>
      match upsert a s with
      | Returned s' => forEach_upsert rest s'
      | Threw s' => Threw s'
      end
  end.

(** The [for (agentId in agentMarkers)] loop: every own key the set does
    not hold is removed from the map and deleted.  The log lists the
    removals in the map's order, not in enumeration order. *)
Definition sweep (currentAgentIds : list jsid) (s : Store) : Store :=
  let gone := filter (λ kv, set_has_key currentAgentIds kv.1 = false)
                     (map_to_list (agentMarkers s)) in
  mkStore (filter (λ kv, set_has_key currentAgentIds kv.1 = true) (agentMarkers s))
          (ops s ++ ((Destroy ∘ fst) <$> gone)).

Definition onmessage (agents : list Agent) (s : Store) : Outcome :=
  let currentAgentIds := agent_id <$> agents in
  match forEach_upsert agents s with
  | Returned s' => Returned (sweep currentAgentIds s')
  | Threw s' => Threw s'
  end.

(** The clear-agents command's continuation: every marker is removed. *)
Definition agentsClear (s : Store) : Store :=
  mkStore ∅ (ops s ++ ((Destroy ∘ fst) <$> map_to_list (agentMarkers s))).

(** Applying a sequence of snapshots, oldest first; an exception in one
    handler does not stop later messages from being handled. *)
Definition apply_all (snaps : list (list Agent)) (s : Store) : Store :=
  foldl (λ st snap, outcome_store (onmessage snap st)) s snaps.

Definition rendered (s : Store) : gset string := dom (agentMarkers s).

Definition count_ops (p : Op → bool) (l : list Op) : nat :=
  length (filter (λ o, p o = true) l).

(** *** Sample inputs *)

Definition empty_store : Store := mkStore ∅ [].

(** An agent whose id is the number 1, and one whose id is a string. *)
Definition agent_numbered : Agent :=
  mkAgent (IdNum 1) (Qc_of_Z 23) (Qc_of_Z 75) "random" None false.
Definition agent_named : Agent :=
  mkAgent (IdStr "a1") (Qc_of_Z 23) (Qc_of_Z 75) "random" None false.

(** The marker [upsert] leaves for an agent. *)
Definition marker_of (a : Agent) : Marker :=
  mkMarker (agent_lat a) (agent_lon a) (markerStyleFor a).

(** The last agent of the snapshot stored under the key [k]. *)
Fixpoint latest (k : string) (agents : list Agent) : option Agent :=
  match agents with
  | [] => None
  | a :: rest =>
      match latest k rest with
      | Some b => Some b
      | None => if bool_decide (to_key (agent_id a) = k) then Some a else None
      end
  end.

(** The keys of the operations of one kind in a log. *)
Definition created (l : list Op) : list string :=
  omap (λ o, match o with Create k => Some k | _ => None end) l.
Definition destroyed (l : list Op) : list string :=
  omap (λ o, match o with Destroy k => Some k | _ => None end) l.

(** An agent whose id names a property of [Object.prototype]. *)
Definition agent_constructor : Agent :=
  mkAgent (IdStr "constructor") (Qc_of_Z 23) (Qc_of_Z 75) "random" None false.

(** The colours [markerStyleFor] gives to event agents. *)
Definition event_colours : list string :=
  ["#ff9800"; "#e53935"; "#6a1b9a"; "#2e7d32"; "#ffb74d"].

(** The property keys of a snapshot's ids. *)
Definition keys_of (agents : list Agent) : list string :=
  (to_key ∘ agent_id) <$> agents.

(** No id of the snapshot names a property inherited from [Object.prototype]. *)
Definition plain_keys (agents : list Agent) : Prop :=
  Forall (λ k, k ∉ proto_keys) (keys_of agents).

(** Every id of the snapshot is a string. *)
Definition string_ids (agents : list Agent) : Prop :=
  Forall (λ a, ∃ k, agent_id a = IdStr k) agents.

End Reconciler.

(** ** InteractionModeController and RouteSelectionFlow: the map click
    handler, the mode buttons and the route-preview response *)

Module Controller.

Inductive Selecting := SelSource | SelDest.
Inductive InfraKind := Gateway | Tower | Toll.

#[global] Instance Selecting_eq_dec : EqDecision Selecting.
Proof. solve_decision. Defined.
#[global] Instance InfraKind_eq_dec : EqDecision InfraKind.
Proof. solve_decision. Defined.

(** The closure variables of the page and the DOM state the handlers read
    and write: [selecting], the picked coordinates, their markers, the
    preview polyline, [infraMode], the [active] class of the two selection
    buttons and the text of the two numeric inputs. *)
Record UI := mkUI {
  selecting : option Selecting;
  sourceLatLng : option LatLng;
  destLatLng : option LatLng;
  sourceMarker : option LatLng;
  destMarker : option LatLng;
  routeLine : option (list LatLng);
  infraMode : option InfraKind;
  selectSourceActive : bool;
  selectDestActive : bool;
  towerRadiusValue : string;
  tollFeeValue : string
}.

Definition initial : UI :=
  mkUI None None None None None None None false false EmptyString EmptyString.

(** Outbound requests: the objects handed to [JSON.stringify] and posted
    to the backend.  The refresh that follows an add request is
    [Infra.loadInfrastructure]. *)
Inductive Request :=
| AddGateway (lon lat : Qc)
| AddMobileTower (lon lat : Qc) (radius : jsnum)
| AddTollGate (lon lat : Qc) (fee : option jsnum)
| RoutePreview (number : Z) (source_lat source_lon dest_lat dest_lon : Qc).

(** The infrastructure kind a request adds, if any. *)
Definition added_kind (r : Request) : option InfraKind :=
  match r with
  | AddGateway _ _ => Some Gateway
  | AddMobileTower _ _ _ => Some Tower
  | AddTollGate _ _ _ => Some Toll
  | RoutePreview _ _ _ _ _ => None
  end.

(** Where a request places its marker ([lat], [lon] of the body). *)
Definition added_at (r : Request) : option LatLng :=
  match r with
  | AddGateway lon lat | AddMobileTower lon lat _ | AddTollGate lon lat _ =>
      Some (mkLatLng lat lon)
  | RoutePreview _ _ _ _ _ => None
  end.

(** What one run of a handler leaves behind. *)
Record Result := mkResult {
  st : UI;
  sent : list Request;
  threw : bool
}.

Definition set_selecting (v : option Selecting) (s : UI) : UI :=
  mkUI v (sourceLatLng s) (destLatLng s) (sourceMarker s) (destMarker s)
       (routeLine s) (infraMode s) (selectSourceActive s) (selectDestActive s)
       (towerRadiusValue s) (tollFeeValue s).

(** The source marker is created at, moved to or removed with the source
    coordinate; likewise for the destination. *)
Definition set_source (v : option LatLng) (s : UI) : UI :=
  mkUI (selecting s) v (destLatLng s) v (destMarker s)
       (routeLine s) (infraMode s) (selectSourceActive s) (selectDestActive s)
       (towerRadiusValue s) (tollFeeValue s).

Definition set_dest (v : option LatLng) (s : UI) : UI :=
  mkUI (selecting s) (sourceLatLng s) v (sourceMarker s) v
       (routeLine s) (infraMode s) (selectSourceActive s) (selectDestActive s)
       (towerRadiusValue s) (tollFeeValue s).

Definition set_routeLine (v : option (list LatLng)) (s : UI) : UI :=
  mkUI (selecting s) (sourceLatLng s) (destLatLng s) (sourceMarker s) (destMarker s)
       v (infraMode s) (selectSourceActive s) (selectDestActive s)
       (towerRadiusValue s) (tollFeeValue s).

Definition set_actives (src dst : bool) (s : UI) : UI :=
  mkUI (selecting s) (sourceLatLng s) (destLatLng s) (sourceMarker s) (destMarker s)
       (routeLine s) (infraMode s) src dst
       (towerRadiusValue s) (tollFeeValue s).

(** [clearRouteSelection] *)
Definition clearRouteSelection (s : UI) : UI :=
  set_selecting None (set_dest None (set_source None (set_routeLine None s))).

(** The click listeners of the two selection buttons. *)
Definition selectSourceClick (s : UI) : UI :=
  set_actives true false (set_selecting (Some SelSource) s).

Definition selectDestClick (s : UI) : UI :=
  set_actives false true (set_selecting (Some SelDest) s).

(** [setInfraMode]; the placement buttons' classes and the status text
    are functions of [infraMode] and are not stored. *)
Definition setInfraMode (mode : option InfraKind) (s : UI) : UI :=
  mkUI (selecting s) (sourceLatLng s) (destLatLng s) (sourceMarker s) (destMarker s)
       (routeLine s) mode (selectSourceActive s) (selectDestActive s)
       (towerRadiusValue s) (tollFeeValue s).

(** The body of a preview response as the [then] chain sees it. *)
Inductive PreviewData :=
| PreviewOk (points : option (list (Qc * Qc)))
| PreviewNotOk
| PreviewFailed.

(** [data.points.map(p => [p[1], p[0]])]: the points come as [lon, lat]. *)
Definition latlngs (points : list (Qc * Qc)) : list LatLng :=
  (λ p, mkLatLng p.2 p.1) <$> points.

(** The [then]/[catch] chain of the route-preview fetch.  With [ok] set the
    old line is removed first; a missing [points] then throws inside the
    chain and the [catch] swallows it. *)
Definition onPreview (d : PreviewData) (s : UI) : UI :=
  match d with
  | PreviewOk (Some pts) => set_routeLine (Some (latlngs pts)) s
  | PreviewOk None => set_routeLine None s
  | PreviewNotOk | PreviewFailed => s
  end.

Section Click.

(** The host's [parseFloat]. *)
Variable parseFloat : string → jsnum.

(** The tail of the click listener after the selection branches. *)
Definition finish (s : UI) (reqs : list Request) : Result :=
  mkResult (set_actives false false (set_selecting None s)) reqs false.

(** [map.on('click', ...)] *)
Definition click (e : LatLng) (s : UI) : Result :=
  match infraMode s with
  | Some Gateway =>
      mkResult s [AddGateway (lng e) (lat e)] false
  | Some Tower =>
      let radiusVal := or_num (parseFloat (towerRadiusValue s)) (Num (Q2Qc (1 # 100))) in
      mkResult s [AddMobileTower (lng e) (lat e) radiusVal] false
  | Some Toll =>
      let feeVal := or_null (parseFloat (tollFeeValue s)) in
      mkResult s [AddTollGate (lng e) (lat e) feeVal] false
  | None =>
      if bool_decide (selecting s = Some SelSource)
         || (bool_decide (sourceLatLng s = None) && bool_decide (selecting s = None))
      then
        let s1 := set_source (Some e) s in
        let s2 := match destLatLng s with
                  | Some _ => set_routeLine None (set_dest None s1)
                  | None => s1
                  end in
        finish s2 []
      else if bool_decide (selecting s = Some SelDest)
              || (bool_decide (destLatLng s = None) && bool_decide (sourceLatLng s ≠ None))
      then
        let s1 := set_dest (Some e) s in
        match sourceLatLng s with
        | Some src =>
            finish s1 [RoutePreview 1 (lat src) (lng src) (lat e) (lng e)]
        | None => mkResult s1 [] true
        end
      else
        finish (set_routeLine None (set_dest None (set_source (Some e) s))) []
  end.

(** *** The page as a transition system *)

(** The page state with the route-preview requests still in flight, each
    remembered with the source and destination it was dispatched for, and
    everything sent so far. *)
Record Page := mkPage {
  ui : UI;
  inflight : list (LatLng * LatLng);
  outbox : list Request
}.

Definition start : Page := mkPage initial [] [].

(** What can happen to the page.  Buttons are taken to be always
    clickable, so the states reached here include those of the page. *)
Inductive Event :=
| MapClick (e : LatLng)
| SelectSourceBtn
| SelectDestBtn
| ClearRouteBtn
| InfraBtn (mode : option InfraKind)
| TypeTowerRadius (v : string)
| TypeTollFee (v : string)
| PreviewArrives (i : nat) (d : PreviewData).

Definition previews (reqs : list Request) : list (LatLng * LatLng) :=
  omap (λ r, match r with
             | RoutePreview _ slat slon dlat dlon =>
                 Some (mkLatLng slat slon, mkLatLng dlat dlon)
             | _ => None
             end) reqs.

Definition on_ui (f : UI → UI) (p : Page) : Page :=
  mkPage (f (ui p)) (inflight p) (outbox p).

Definition step (ev : Event) (p : Page) : Page :=
  match ev with
  | MapClick e =>
      let r := click e (ui p) in
      mkPage (st r) (inflight p ++ previews (sent r)) (outbox p ++ sent r)
  | SelectSourceBtn => on_ui selectSourceClick p
  | SelectDestBtn => on_ui selectDestClick p
  | ClearRouteBtn => on_ui clearRouteSelection p
  | InfraBtn mode => on_ui (setInfraMode mode) p
  | TypeTowerRadius v =>
      on_ui (λ s, mkUI (selecting s) (sourceLatLng s) (destLatLng s) (sourceMarker s)
                       (destMarker s) (routeLine s) (infraMode s) (selectSourceActive s)
                       (selectDestActive s) v (tollFeeValue s)) p
  | TypeTollFee v =>
      on_ui (λ s, mkUI (selecting s) (sourceLatLng s) (destLatLng s) (sourceMarker s)
                       (destMarker s) (routeLine s) (infraMode s) (selectSourceActive s)
                       (selectDestActive s) (towerRadiusValue s) v) p
  | PreviewArrives i d =>
      match inflight p !! i with
      | Some _ => mkPage (onPreview d (ui p)) (delete i (inflight p)) (outbox p)
      | None => p
      end
  end.

Definition run (evs : list Event) (p : Page) : Page :=
  foldl (λ q ev, step ev q) p evs.

(** A state the page can be in: some sequence of events leads to it. *)
Definition reachable (p : Page) : Prop := ∃ evs, p = run evs start.

(** The response [i] is for the selection that is still current. *)
Definition fresh (p : Page) (i : nat) : Prop :=
  ∃ src dst, inflight p !! i = Some (src, dst)
             ∧ sourceLatLng (ui p) = Some src ∧ destLatLng (ui p) = Some dst.

(** States reached when no response arrives after the selection it was
    requested for has changed. *)
Inductive reachable_fresh : Page → Prop :=
| rf_start : reachable_fresh start
| rf_step p ev :
    reachable_fresh p →
    (∀ i d, ev = PreviewArrives i d → fresh p i) →
    reachable_fresh (step ev p).

(** An event that changes or clears the source or the destination. *)
Definition changes_selection (ev : Event) (p : Page) : Prop :=
  sourceLatLng (ui (step ev p)) ≠ sourceLatLng (ui p)
  ∨ destLatLng (ui (step ev p)) ≠ destLatLng (ui p).

(** A preview is on the map only with both ends picked. *)
Definition preview_needs_both (s : UI) : Prop :=
  routeLine s ≠ None → sourceLatLng s ≠ None ∧ destLatLng s ≠ None.

(** A selection mode and a placement mode are not active together. *)
Definition modes_exclusive (s : UI) : Prop :=
  ¬ (selecting s ≠ None ∧ infraMode s ≠ None).

(** A response that arrives for a selection that is no longer current
    leaves the rendered preview alone. *)
Definition stale_responses_discarded : Prop :=
  ∀ p i d src dst,
    reachable p →
    inflight p !! i = Some (src, dst) →
    ¬ (sourceLatLng (ui p) = Some src ∧ destLatLng (ui p) = Some dst) →
    routeLine (ui (step (PreviewArrives i d) p)) = routeLine (ui p).

End Click.

(** *** Sample inputs *)

Definition pointA : LatLng := mkLatLng (Qc_of_Z 23) (Qc_of_Z 75).
Definition pointB : LatLng := mkLatLng (Qc_of_Z 24) (Qc_of_Z 76).
Definition pointC : LatLng := mkLatLng (Qc_of_Z 25) (Qc_of_Z 77).

(** A fragment of the host's [parseFloat]: exact on the texts [0] and
    [2.5], [NaN] on everything else (as on the empty text). *)
Definition parseFloat_sample (v : string) : jsnum :=
  if bool_decide (v = "0") then Num 0%Qc
  else if bool_decide (v = "2.5") then Num (Q2Qc (5 # 2))
  else NaN.

(** Three clicks in a row: the preview requested by the second is still in
    flight when the third resets the selection. *)
Definition three_clicks : list Event :=
  [MapClick pointA; MapClick pointB; MapClick pointC].

(** A preview that arrived in time, then the destination button. *)
Definition route_shown_then_dest_button : list Event :=
  [MapClick pointA; MapClick pointB;
   PreviewArrives 0 (PreviewOk (Some [(lng pointB, lat pointB)]));
   SelectDestBtn].

(** A placement button, then a selection button. *)
Definition gateway_then_source : list Event :=
  [InfraBtn (Some Gateway); SelectSourceBtn].

(** The page with [tower] placement active, and with [toll] placement
    active and the fee field holding the text [0]. *)
Definition placing_tower : UI := setInfraMode (Some Tower) initial.
Definition placing_toll_zero : UI :=
  mkUI None None None None None None (Some Toll) false false EmptyString "0".

(** The destination was asked for before any source: SelectingDest with
    no source picked and no placement mode. *)
Definition dest_first (s : UI) : Prop :=
  infraMode s = None ∧ selecting s = Some SelDest ∧ sourceLatLng s = None.

(** The [active] classes of the two selection buttons show the mode. *)
Definition indicators_match (s : UI) : Prop :=
  (selectSourceActive s = true ↔ selecting s = Some SelSource)
  ∧ (selectDestActive s = true ↔ selecting s = Some SelDest).

(** The destination button pressed on the fresh page. *)
Definition dest_button_first : UI := selectDestClick initial.

(** The tower radius field holding a text without a number. *)
Definition placing_tower_text : UI :=
  mkUI None None None None None None (Some Tower) false false "wide" EmptyString.

End Controller.

(** ** The other listeners of the page: [updateRouteStatus] and the
    crowd, event, random-traffic and speed commands *)

Module Commands.

Import Controller.

(** ToBoolean on an object-or-null. *)
Definition truthy_obj {A} (x : option A) : bool :=
  match x with Some _ => true | None => false end.

(** The [disabled] flags [updateRouteStatus] (with the event button's
    patch) writes; the status text is left out. *)
Record Buttons := mkButtons {
  addRoutedDisabled : bool;
  clearRouteDisabled : bool;
  startEventDisabled : bool
}.

Definition updateRouteStatus (s : UI) : Buttons :=
  let ready := truthy_obj (sourceLatLng s) && truthy_obj (destLatLng s) in
  mkButtons
    (negb ready)
    (negb ready && negb (truthy_obj (sourceLatLng s)) && negb (truthy_obj (destLatLng s)))
    (negb (truthy_obj (sourceLatLng s) && truthy_obj (destLatLng s))).

(** The fields of the event form and of the random-traffic form. *)
Record EventForm := mkEventForm {
  ev_wave_size : string;
  ev_interval : string;
  ev_dwell_min : string;
  ev_dwell_max : string;
  ev_exit : bool;
  ev_max_waves : string
}.

Record RandomForm := mkRandomForm {
  rt_target : string;
  rt_max : string;
  rt_interval : string;
  rt_bmin : string;
  rt_bmax : string;
  rt_vmin : string;
  rt_vmax : string
}.

Record EventBody := mkEventBody {
  source_lat : Qc;
  source_lon : Qc;
  dest_lat : Qc;
  dest_lon : Qc;
  wave_size : jsnum;
  wave_interval_seconds : jsnum;
  dwell_min_seconds : jsnum;
  dwell_max_seconds : jsnum;
  exit_after_dwell : bool;
  max_waves : jsnum
}.

Record RandomBody := mkRandomBody {
  target_agents : jsnum;
  max_agents : jsnum;
  spawn_interval_seconds : jsnum;
  batch_min : jsnum;
  batch_max : jsnum;
  min_speed : jsnum;
  max_speed : jsnum
}.

(** The bodies posted by these listeners. *)
Inductive Command :=
| AddCrowd (number : jsnum)
| AddCrowdRoute (number : jsnum) (slat slon dlat dlon : Qc)
| StartEvent (body : EventBody)
| StartRandomTraffic (body : RandomBody)
| SpeedMultiplier (multiplier : jsnum).

(** The numbers of a body that went through a [|| default]. *)
Definition defaulted (c : Command) : list jsnum :=
  match c with
  | AddCrowd _ => []
  | AddCrowdRoute n _ _ _ _ => [n]
  | StartEvent b =>
      [wave_size b; wave_interval_seconds b; dwell_min_seconds b;
       dwell_max_seconds b; max_waves b]
  | StartRandomTraffic b =>
      [target_agents b; max_agents b; spawn_interval_seconds b;
       batch_min b; batch_max b; min_speed b; max_speed b]
  | SpeedMultiplier m => [m]
  end.

Definition of_Z (n : Z) : jsnum := Num (Qc_of_Z n).

Section Listeners.

(** The host's [parseInt] (radix 10) and [parseFloat]. *)
Variable parseInt : string → jsnum.
Variable parseFloat : string → jsnum.

(** The add-crowd button: the parsed size goes out as it is. *)
Definition addCrowdClick (crowd_size : string) : list Command :=
  [AddCrowd (parseInt crowd_size)].

(** The add-routed-crowd button. *)
Definition addRoutedClick (crowd_size : string) (s : UI) : list Command :=
  match sourceLatLng s, destLatLng s with
  | Some src, Some dst =>
      [AddCrowdRoute (or_num (parseInt crowd_size) (of_Z 1))
                     (lat src) (lng src) (lat dst) (lng dst)]
  | _, _ => []
  end.

(** The start-event button. *)
Definition startEventClick (f : EventForm) (s : UI) : list Command :=
  match sourceLatLng s, destLatLng s with
  | Some src, Some dst =>
      [StartEvent
         (mkEventBody (lat src) (lng src) (lat dst) (lng dst)
            (or_num (parseInt (ev_wave_size f)) (of_Z 100))
            (or_num (parseFloat (ev_interval f)) (of_Z 10))
            (or_num (parseFloat (ev_dwell_min f)) (of_Z 30))
            (or_num (parseFloat (ev_dwell_max f)) (of_Z 90))
            (ev_exit f)
            (or_num (parseInt (ev_max_waves f)) (of_Z 5)))]
  | _, _ => []
  end.

(** The start-random-traffic button. *)
Definition startRandomClick (f : RandomForm) : list Command :=
  [StartRandomTraffic
     (mkRandomBody
        (or_num (parseInt (rt_target f)) (of_Z 200))
        (or_num (parseInt (rt_max f)) (of_Z 400))
        (or_num (parseFloat (rt_interval f)) (of_Z 2))
        (or_num (parseInt (rt_bmin f)) (of_Z 5))
        (or_num (parseInt (rt_bmax f)) (of_Z 15))
        (or_num (parseFloat (rt_vmin f)) (Num (Q2Qc (3 # 10000))))
        (or_num (parseFloat (rt_vmax f)) (Num (Q2Qc (8 # 10000)))))].

(** The apply-speed button: the multiplier it posts. *)
Definition speedMultiplier (spd_mult : string) : jsnum :=
  or_num (parseFloat spd_mult) (of_Z 1).

(** The [multiplier] field of the response body, as far as the handler
    can tell: missing or a falsy value that is no number ([undefined],
    [null], [false], the empty text); a number; or a truthy value that is
    no number (a text, [true], an object), which has no [toFixed]. *)
Inductive Multiplier :=
| NoMultiplier
| NumberMultiplier (x : jsnum)
| OtherMultiplier.

(** How the speed request settles: the fetch or the parse of the body
    fails; the body is [null], so that reading [d.multiplier] throws; or
    the body is any other value, with its [multiplier] field. *)
Inductive SpeedResponse :=
| SpeedFailed
| SpeedNullBody
| SpeedBody (field : Multiplier).

(** What the speed status shows once the request has settled: the number
    [d.multiplier || m], or an error when anything in the chain threw. *)
Inductive SpeedStatus :=
| SpeedShown (x : jsnum)
| SpeedError.

Definition onSpeedResponse (m : jsnum) (r : SpeedResponse) : SpeedStatus :=
  match r with
  | SpeedFailed => SpeedError
  | SpeedNullBody => SpeedError
  | SpeedBody NoMultiplier => SpeedShown m
  | SpeedBody (NumberMultiplier x) => SpeedShown (or_num x m)
  | SpeedBody OtherMultiplier => SpeedError
  end.

End Listeners.

(** *** The page with the [disabled] flags as last written *)

(** The three flags are DOM state: they change only when a listener
    reaches [updateRouteStatus()]. *)
Record Screen := mkScreen {
  page : Page;
  buttons : Buttons
}.

(** The [DOMContentLoaded] callback ends with [updateRouteStatus()]. *)
Definition loaded : Screen := mkScreen start (updateRouteStatus initial).

Section Flags.

Variable parseFloat : string → jsnum.

(** One event on the screen.  A map click in a placement mode returns
    before [updateRouteStatus()], and the click that throws never reaches
    it; the clear-route button does not fire while it is disabled; the
    other listeners do not call it. *)
Definition screen_step (ev : Event) (c : Screen) : Screen :=
  match ev with
  | MapClick e =>
      let r := click parseFloat e (ui (page c)) in
      mkScreen (step parseFloat ev (page c))
        (match infraMode (ui (page c)) with
         | Some _ => buttons c
         | None => if threw r then buttons c else updateRouteStatus (st r)
         end)
  | ClearRouteBtn =>
      if clearRouteDisabled (buttons c) then c
      else
        let p := step parseFloat ev (page c) in
        mkScreen p (updateRouteStatus (ui p))
  | _ => mkScreen (step parseFloat ev (page c)) (buttons c)
  end.

Definition screen_run (evs : list Event) (c : Screen) : Screen :=
  foldl (λ q ev, screen_step ev q) c evs.

End Flags.

(** The flags agree with the selection: the add-routed and start-event
    buttons are enabled exactly with both ends picked, the clear-route
    button exactly with a source. *)
Definition flags_ok (c : Screen) : Prop :=
  let s := ui (page c) in
  addRoutedDisabled (buttons c)
  = negb (truthy_obj (sourceLatLng s) && truthy_obj (destLatLng s))
  ∧ startEventDisabled (buttons c)
    = negb (truthy_obj (sourceLatLng s) && truthy_obj (destLatLng s))
  ∧ (clearRouteDisabled (buttons c) = true ↔ sourceLatLng s = None).

(** *** Sample inputs *)

(** A fragment of the host's [parseInt]: exact on the text [250], [NaN]
    elsewhere (as on the empty text). *)
Definition parseInt_sample (v : string) : jsnum :=
  if bool_decide (v = "250") then of_Z 250 else NaN.

(** The destination button, then a click on the map, on the fresh page. *)
Definition dest_button_then_click : list Event :=
  [SelectDestBtn; MapClick pointB].

(** Both ends picked. *)
Definition both_picked : UI :=
  mkUI None (Some pointA) (Some pointB) (Some pointA) (Some pointB) None None
       false false EmptyString EmptyString.

End Commands.

(** ** InfrastructureOverlay: [loadInfrastructure] *)

Module Infra.

(** One entry of the infra-stats response. *)
Record Entry := mkEntry {
  entry_id : jsid;
  entry_name : option string;
  entry_lat : Qc;
  entry_lon : Qc;
  nearby_agents : Z;
  entry_radius : option Qc;
  entry_fee : option Qc
}.

(** The parsed response; each list may be missing ([|| []]). *)
Record Snap := mkSnap {
  gateways : option (list Entry);
  mobile_towers : option (list Entry);
  toll_gates : option (list Entry)
}.

(** What is drawn in a layer group: a marker bound to its entry (tooltip
    and delete action), or a tower's coverage ring. *)
Inductive Layer :=
| CircleMarker (lat lon : Qc) (radius : Z) (color : string) (entry : Entry)
| Ring (lat lon : Qc) (radiusMeters : jsnum) (color : string).

Record Layers := mkLayers {
  layers_gateways : list Layer;
  layers_tower : list Layer;
  layers_toll : list Layer
}.

Definition clearInfraLayers (l : Layers) : Layers := mkLayers [] [] [].

Definition degreesToMetersLat (deg : Qc) : jsnum :=
  Double.fmul (Num deg) (Double.of_Z 111000).

Definition draw_gateway (g : Entry) : list Layer :=
  [CircleMarker (entry_lat g) (entry_lon g) 7 "#16a085" g].

Definition draw_tower (t : Entry) : list Layer :=
  CircleMarker (entry_lat t) (entry_lon t) 5 "#8e44ad" t ::
  (if truthy_opt (entry_radius t)
   then [Ring (entry_lat t) (entry_lon t)
              (degreesToMetersLat (default 0%Qc (entry_radius t))) "#8e44ad"]
   else []).

Definition draw_toll (tg : Entry) : list Layer :=
  [CircleMarker (entry_lat tg) (entry_lon tg) 6 "#f1c40f" tg].

(** [loadInfrastructure] once the fetch has settled: [None] is the [null]
    the [catch] turns a network or parse error into. *)
Definition loadInfrastructure (snap : option Snap) (l : Layers) : Layers :=
  let l0 := clearInfraLayers l in
  match snap with
  | Some sn =>
      mkLayers
        (layers_gateways l0 ++ (default [] (gateways sn) ≫= draw_gateway))
        (layers_tower l0 ++ (default [] (mobile_towers sn) ≫= draw_tower))
        (layers_toll l0 ++ (default [] (toll_gates sn) ≫= draw_toll))
  | None => l0
  end.

(** One gateway on the map. *)
Definition one_gateway : Layers :=
  loadInfrastructure
    (Some (mkSnap (Some [mkEntry (IdNum 1) None (Qc_of_Z 23) (Qc_of_Z 75) 0 None None])
                  None None))
    (mkLayers [] [] []).

(** A snapshot with a gateway, a tower with the radius 0.07, a tower
    with the radius 0, and a toll gate. *)
Definition sample_snap : Snap :=
  mkSnap
    (Some [mkEntry (IdNum 1) None (Qc_of_Z 23) (Qc_of_Z 75) 4 None None])
    (Some [mkEntry (IdNum 2) None (Qc_of_Z 23) (Qc_of_Z 75) 0
                   (Some (Double.double (Q2Qc (7 # 100)))) None;
           mkEntry (IdNum 3) None (Qc_of_Z 24) (Qc_of_Z 76) 0 (Some 0%Qc) None])
    (Some [mkEntry (IdNum 4) None (Qc_of_Z 25) (Qc_of_Z 77) 9 None (Some (Qc_of_Z 20))]).

Definition is_ring (x : Layer) : bool :=
  match x with Ring _ _ _ _ => true | CircleMarker _ _ _ _ _ => false end.

Definition drawn (l : Layers) : nat :=
  (length (layers_gateways l) + length (layers_tower l) + length (layers_toll l))%nat.

End Infra.

(** ** DensityLayerRenderer: [colorForWeight], [drawHexes], [runPrediction] *)

(** The renderer with its numbers taken exactly: the sorting, the
    percentile positions, which tiles are drawn and as what.  The same
    functions with their arithmetic in doubles are in [Render]. *)
Module Density.

Definition Math_max (a b : Qc) : Qc := if decide (a ≤ b)%Qc then b else a.
Definition Math_min (a b : Qc) : Qc := if decide (a ≤ b)%Qc then a else b.
Definition Math_floor (x : Qc) : Z := Qfloor x.
(** [Math.round]: to the nearest integer, halves up. *)
Definition Math_round (x : Qc) : Z := Qfloor (x + Q2Qc (1 # 2))%Qc.

Definition half : Qc := Q2Qc (1 # 2).

(** The channels of the [rgb(r,g,b)] string. *)
Definition colorForWeight (norm : Qc) : Z * Z * Z :=
  if decide (norm ≤ half)%Qc then
    let t := (norm / half)%Qc in
    (Math_round (Qc_of_Z 68 + (Qc_of_Z 255 - Qc_of_Z 68) * t)%Qc,
     Math_round (Qc_of_Z 68 + (Qc_of_Z 235 - Qc_of_Z 68) * t)%Qc,
     Math_round (Qc_of_Z 68 + (Qc_of_Z 59 - Qc_of_Z 68) * t)%Qc)
  else
    let t := ((norm - half) / half)%Qc in
    (Math_round (Qc_of_Z 255 + (Qc_of_Z 244 - Qc_of_Z 255) * t)%Qc,
     Math_round (Qc_of_Z 235 + (Qc_of_Z 67 - Qc_of_Z 235) * t)%Qc,
     Math_round (Qc_of_Z 59 + (Qc_of_Z 54 - Qc_of_Z 59) * t)%Qc).

Record Tile := mkTile {
  h3_index : option string;
  tile_lat : option Qc;
  tile_lon : option Qc;
  weight : Qc
}.

(** The numbers a tooltip shows, before formatting. *)
Record Tooltip := mkTooltip {
  tip_h3 : option string;
  tip_weight : Qc;
  tip_percentile : Qc
}.

Inductive Shape :=
| Polygon (coords : list (Qc * Qc)) (fillColor : Z * Z * Z) (tip : Tooltip)
| Disc (lat lon : Qc) (fillColor : Z * Z * Z) (radius : Qc) (tip : Tooltip).

Definition shape_fill (sh : Shape) : Z * Z * Z :=
  match sh with Polygon _ c _ | Disc _ _ c _ _ => c end.

Definition shape_tip (sh : Shape) : Tooltip :=
  match sh with Polygon _ _ t | Disc _ _ _ _ t => t end.

(** [tiles.map(t => t.weight).sort((a, b) => a - b)] *)
Definition sorted_weights (tiles : list Tile) : list Qc :=
  merge_sort Qcle (weight <$> tiles).

(** The index inside [q]. *)
Definition q_index (n : nat) (p : Qc) : Z :=
  Z.max 0 (Z.min (Z.of_nat n - 1) (Math_floor (p * Qc_of_Z (Z.of_nat n - 1))%Qc)).

(** [q = p => ws[...]]; reading past the array gives [undefined]. *)
Definition q (ws : list Qc) (p : Qc) : option Qc :=
  ws !! Z.to_nat (q_index (length ws) p).

Definition p05 : Qc := Q2Qc (5 # 100).
Definition p95 : Qc := Q2Qc (95 # 100).

(** [(maxW - minW) || 1] *)
Definition range_of (minW maxW : Qc) : Qc :=
  if decide (maxW - minW = 0)%Qc then 1%Qc else (maxW - minW)%Qc.

(** [Math.max(0, Math.min(1, (w - minW) / range))] *)
Definition normalize (minW range w : Qc) : Qc :=
  Math_max 0%Qc (Math_min 1%Qc ((w - minW) / range)%Qc).

Section Draw.

(** [window.h3]: absent, or its [cellToBoundary], which may throw. *)
Variable h3 : option (string → option (list (Qc * Qc))).

(** The fallback branch: a disc at the tile's coordinate when both [lat]
    and [lon] are truthy. *)
Definition draw_disc (norm : Qc) (tip : Tooltip) (t : Tile) : list Shape :=
  if truthy_opt (tile_lat t) && truthy_opt (tile_lon t)
  then [Disc (default 0%Qc (tile_lat t)) (default 0%Qc (tile_lon t))
             (colorForWeight norm) (Qc_of_Z 50 + norm * Qc_of_Z 200)%Qc tip]
  else [].

(** The body of [tiles.forEach]: a hexagon when [window.h3] and the index
    are there (nothing if the conversion throws), the disc otherwise. *)
Definition draw_tile (minW range : Qc) (t : Tile) : list Shape :=
  let norm := normalize minW range (weight t) in
  let tip := mkTooltip (h3_index t) (weight t) (norm * Qc_of_Z 100)%Qc in
  match h3 with
  | Some cellToBoundary =>
      if truthy_str (h3_index t) then
        match cellToBoundary (default EmptyString (h3_index t)) with
        | Some polyCoords => [Polygon polyCoords (colorForWeight norm) tip]
        | None => []
        end
      else draw_disc norm tip t
  | None => draw_disc norm tip t
  end.

(** [drawHexes]; the layer group is [None] until the map is initialised.
    With tiles present both percentiles are defined (see [q_nonempty]). *)
Definition drawHexes (tiles : list Tile) (layer : option (list Shape))
  : option (list Shape) :=
  match layer with
  | None => None
  | Some _ =>
      match tiles with
      | [] => Some []
      | _ :: _ =>
          let ws := sorted_weights tiles in
          match q ws p05, q ws p95 with
          | Some lo, Some hi =>
              let minW := lo in
              let maxW := hi in
              let range := range_of minW maxW in
              Some (tiles ≫= draw_tile minW range)
          | _, _ => Some []
          end
      end
  end.

(** The status line. *)
Inductive Status :=
| StatusIdle
| StatusPredicting
| StatusRendered (tiles : nat) (total_weight : option Qc)
| StatusNoTiles
| StatusError (message : string)
| StatusMapInitFailed.

(** How the prediction fetch settles. *)
Inductive Fetched :=
| NetworkError (message : string)
| HttpError (status : Z) (statusText : string)
| ParseError (message : string)
| Json (tiles : option (list Tile)) (total_weight : option Qc).

Record View := mkView {
  hexLayer : option (list Shape);
  status : Status
}.

(** [runPrediction] once the fetch has settled. *)
Definition runPrediction (r : Fetched) (v : View) : View :=
  match r with
  | NetworkError msg => mkView (hexLayer v) (StatusError msg)
  | HttpError code text =>
      mkView (hexLayer v) (StatusError ("HTTP " ++ pretty code ++ ": " ++ text)%string)
  | ParseError msg => mkView (hexLayer v) (StatusError msg)
  | Json (Some (t :: ts)) total =>
      mkView (drawHexes (t :: ts) (hexLayer v)) (StatusRendered (length (t :: ts)) total)
  | Json _ _ => mkView (hexLayer v) StatusNoTiles
  end.

End Draw.

(** The normalised value of a weight among the weights of [tiles]. *)
Definition normalized (tiles : list Tile) (w : Qc) : option Qc :=
  let ws := sorted_weights tiles in
  match q ws p05, q ws p95 with
  | Some lo, Some hi => Some (normalize lo (range_of lo hi) w)
  | _, _ => None
  end.

(** The radius of a disc. *)
Definition shape_radius (sh : Shape) : option Qc :=
  match sh with Polygon _ _ _ => None | Disc _ _ _ r _ => Some r end.

Definition is_polygon (sh : Shape) : bool :=
  match sh with Polygon _ _ _ => true | Disc _ _ _ _ _ => false end.

(** A tile the fallback branch can place. *)
Definition has_position (t : Tile) : bool :=
  truthy_opt (tile_lat t) && truthy_opt (tile_lon t).

(** *** Sample inputs *)

Definition weighted (w : Qc) : Tile := mkTile None None None w.

(** Two tiles, weights 0 and 1/2. *)
Definition tiles_0_half : list Tile :=
  [weighted 0%Qc; weighted (Q2Qc (1 # 2))].

(** A tile at a coordinate, and one on the equator. *)
Definition tile_at (la lo w : Z) : Tile :=
  mkTile None (Some (Qc_of_Z la)) (Some (Qc_of_Z lo)) (Qc_of_Z w).

Definition tiles_with_equator : list Tile :=
  [tile_at 23 75 1; tile_at 0 75 2; tile_at 24 76 3].

End Density.

(** ** DensityLayerRenderer in double arithmetic: [colorForWeight], [drawHexes] *)

Module Render.

Import Density Double.

Definition half : jsnum := Num (Q2Qc (1 # 2)).

(** The channels of the [rgb(r,g,b)] string. *)
Definition colorForWeight (norm : jsnum) : jsnum * jsnum * jsnum :=
  if leb norm half then
    let t := fdiv norm half in
    (Math_round (fadd (of_Z 68) (fmul (fsub (of_Z 255) (of_Z 68)) t)),
     Math_round (fadd (of_Z 68) (fmul (fsub (of_Z 235) (of_Z 68)) t)),
     Math_round (fadd (of_Z 68) (fmul (fsub (of_Z 59) (of_Z 68)) t)))
  else
    let t := fdiv (fsub norm half) half in
    (Math_round (fadd (of_Z 255) (fmul (fsub (of_Z 244) (of_Z 255)) t)),
     Math_round (fadd (of_Z 235) (fmul (fsub (of_Z 67) (of_Z 235)) t)),
     Math_round (fadd (of_Z 59) (fmul (fsub (of_Z 54) (of_Z 59)) t))).

(** The numbers a tooltip shows, before formatting. *)
Record Tooltip := mkTooltip {
  tip_h3 : option string;
  tip_weight : Qc;
  tip_percentile : jsnum
}.

Inductive Shape :=
| Polygon (coords : list (Qc * Qc)) (fillColor : jsnum * jsnum * jsnum) (tip : Tooltip)
| Disc (lat lon : Qc) (fillColor : jsnum * jsnum * jsnum) (radius : jsnum) (tip : Tooltip).

#[global] Instance Tooltip_eq_dec : EqDecision Tooltip.
Proof. solve_decision. Defined.
#[global] Instance Shape_eq_dec : EqDecision Shape.
Proof. solve_decision. Defined.

Definition shape_fill (sh : Shape) : jsnum * jsnum * jsnum :=
  match sh with Polygon _ c _ | Disc _ _ c _ _ => c end.

Definition shape_tip (sh : Shape) : Tooltip :=
  match sh with Polygon _ _ t | Disc _ _ _ _ t => t end.

(** The radius of a disc. *)
Definition shape_radius (sh : Shape) : option jsnum :=
  match sh with Polygon _ _ _ => None | Disc _ _ _ r _ => Some r end.

(** [(maxW - minW) || 1] *)
Definition range_of (minW maxW : Qc) : jsnum :=
  or_num (fsub (Num maxW) (Num minW)) (of_Z 1).

(** [Math.max(0, Math.min(1, (w - minW) / range))] *)
Definition normalize (minW : Qc) (range : jsnum) (w : Qc) : jsnum :=
  Math_max (of_Z 0) (Math_min (of_Z 1) (fdiv (fsub (Num w) (Num minW)) range)).

Section Draw.

(** [window.h3]: absent, or its [cellToBoundary], which may throw. *)
Variable h3 : option (string → option (list (Qc * Qc))).

(** The fallback branch: a disc at the tile's coordinate when both [lat]
    and [lon] are truthy. *)
Definition draw_disc (norm : jsnum) (tip : Tooltip) (t : Tile) : list Shape :=
  if truthy_opt (tile_lat t) && truthy_opt (tile_lon t)
  then [Disc (default 0%Qc (tile_lat t)) (default 0%Qc (tile_lon t))
             (colorForWeight norm) (fadd (of_Z 50) (fmul norm (of_Z 200))) tip]
  else [].

(** The body of [tiles.forEach]: a hexagon when [window.h3] and the index
    are there (nothing if the conversion throws), the disc otherwise. *)
Definition draw_tile (minW : Qc) (range : jsnum) (t : Tile) : list Shape :=
  let norm := normalize minW range (weight t) in
  let tip := mkTooltip (h3_index t) (weight t) (fmul norm (of_Z 100)) in
  match h3 with
  | Some cellToBoundary =>
      if truthy_str (h3_index t) then
        match cellToBoundary (default EmptyString (h3_index t)) with
        | Some polyCoords => [Polygon polyCoords (colorForWeight norm) tip]
        | None => []
        end
      else draw_disc norm tip t
  | None => draw_disc norm tip t
  end.

(** [drawHexes]; the layer group is [None] until the map is initialised.
    The weights are finite numbers, sorted by the sign of [a - b], which
    is their order. *)
Definition drawHexes (tiles : list Tile) (layer : option (list Shape))
  : option (list Shape) :=
  match layer with
  | None => None
  | Some _ =>
      match tiles with
      | [] => Some []
      | _ :: _ =>
          let ws := sorted_weights tiles in
          match q ws p05, q ws p95 with
          | Some lo, Some hi =>
              let minW := lo in
              let maxW := hi in
              let range := range_of minW maxW in
              Some (tiles ≫= draw_tile minW range)
          | _, _ => Some []
          end
      end
  end.

End Draw.

(** The difference [hi - lo] of the two percentiles is too large for a
    double. *)
Definition range_overflows (tiles : list Tile) : Prop :=
  ∃ lo hi, q (sorted_weights tiles) p05 = Some lo
           ∧ q (sorted_weights tiles) p95 = Some hi
           ∧ fsub (Num hi) (Num lo) = Infinity false.

(** [a <= x && x <= b] *)
Definition between (a x b : jsnum) : Prop := leb a x = true ∧ leb x b = true.

(** *** Sample inputs *)

(** A tile at the coordinate (23, 75) with the given weight. *)
Definition tile_weighing (w : Qc) : Tile :=
  mkTile None (Some (Qc_of_Z 23)) (Some (Qc_of_Z 75)) w.


(** Two tiles, weights 0 and 1/2. *)
Definition tiles_0_half : list Tile :=
  [tile_weighing (Qc_of_Z 0); tile_weighing (Q2Qc (1 # 2))].


End Render.

(** ** The dashboard grid ([App.jsx]): the column spans of the map and of
    the right sidebar, by which panels are collapsed *)

Module Layout.

Definition leftSpan : Z := 3.

Definition mainSpan (analyticsCollapsed aiCollapsed : bool) : Z :=
  if analyticsCollapsed && aiCollapsed then 9
  else if analyticsCollapsed || aiCollapsed then 7
  else 6.

(** [col-span-0 hidden] is no column. *)
Definition rightSpan (analyticsCollapsed aiCollapsed : bool) : Z :=
  if analyticsCollapsed && aiCollapsed then 0
  else if analyticsCollapsed || aiCollapsed then 2
  else 3.

End Layout.

(** * Properties *)

Import Reconciler Controller Commands Infra Density Layout.

(** * Rounding to the nearest double *)

Section RoundingFacts.

Import Double.
Local Open Scope Q_scope.

Lemma pow2_pos e : 0 < pow2 e.
Proof. apply Qpower_0_lt. reflexivity. Qed.

Lemma pow2_add a b : pow2 (a + b) == pow2 a * pow2 b.
Proof. apply Qpower_plus. discriminate. Qed.

Lemma pow2_mono a b : (a <= b)%Z -> pow2 a <= pow2 b.
Proof. intros H. apply Qpower_le_compat_l; [exact H|discriminate]. Qed.

Lemma pow2_lt_inv a b : pow2 a < pow2 b -> (a < b)%Z.
Proof. intros H. apply (Qpower_lt_compat_l_inv 2); [exact H|reflexivity]. Qed.

Lemma pow2_Z k : (0 <= k)%Z -> pow2 k == inject_Z (2 ^ k).
Proof. intros H. unfold pow2. rewrite Zpower_Qpower by exact H. reflexivity. Qed.

Lemma rne_mono x y : x <= y -> (rne x <= rne y)%Z.
Proof.
  intros Hxy. unfold rne.
  pose proof (Qfloor_resp_le x y Hxy) as Hf.
  pose proof (Qfloor_le x) as Hx1. pose proof (Qlt_floor x) as Hx2.
  pose proof (Qfloor_le y) as Hy1. pose proof (Qlt_floor y) as Hy2.
  destruct (Z.eq_dec (Qfloor x) (Qfloor y)) as [He|Hne].
  - rewrite <- He in *.
    destruct (Qcompare_spec (x - inject_Z (Qfloor x)) (1 # 2)) as [H1|H1|H1];
    destruct (Qcompare_spec (y - inject_Z (Qfloor x)) (1 # 2)) as [H2|H2|H2];
      try lia; try (exfalso; lra); destruct (Z.even (Qfloor x)); lia.
  - assert (Qfloor x + 1 <= Qfloor y)%Z as Hlt by lia.
    destruct (x - inject_Z (Qfloor x) ?= 1 # 2); destruct (y - inject_Z (Qfloor y) ?= 1 # 2);
      try destruct (Z.even (Qfloor x)); try destruct (Z.even (Qfloor y)); lia.
Qed.

Lemma rne_proper x y : x == y -> rne x = rne y.
Proof.
  intros H. apply Z.le_antisymm; apply rne_mono; rewrite H; apply Qle_refl.
Qed.

Lemma rne_Z k : rne (inject_Z k) = k.
Proof.
  unfold rne. rewrite Qfloor_Z.
  destruct (Qcompare_spec (inject_Z k - inject_Z k) (1 # 2)) as [H|H|H];
    [exfalso; lra | reflexivity | exfalso; lra].
Qed.

Lemma rne_le x k : x <= inject_Z k -> (rne x <= k)%Z.
Proof. intros H. rewrite <- (rne_Z k). apply rne_mono, H. Qed.

Lemma rne_ge x k : inject_Z k <= x -> (k <= rne x)%Z.
Proof. intros H. rewrite <- (rne_Z k). apply rne_mono, H. Qed.


Lemma ilog2_spec x : 0 < x -> pow2 (ilog2 x) <= x /\ x < pow2 (ilog2 x + 1).
Proof.
  intros Hx. destruct x as [n d]. unfold ilog2. cbn [Qnum Qden].
  assert (0 < n)%Z as Hn by (unfold Qlt in Hx; simpl in Hx; lia).
  set (ln := Z.log2 n). set (ld := Z.log2 (Z.pos d)).
  destruct (Z.log2_spec n Hn) as [Hn1 Hn2]. fold ln in Hn1, Hn2.
  destruct (Z.log2_spec (Z.pos d) (Pos2Z.is_pos d)) as [Hd1 Hd2]. fold ld in Hd1, Hd2.
  assert (0 <= ln)%Z as Hln by apply Z.log2_nonneg.
  assert (0 <= ld)%Z as Hld by apply Z.log2_nonneg.
  set (k := (ln - ld)%Z).
  pose proof (pow2_pos k) as Hk.
  assert (pow2 k * pow2 ld == pow2 ln) as Hsplit.
  { rewrite <- pow2_add. replace (k + ld)%Z with ln by (unfold k; lia). reflexivity. }
  assert (pow2 (k + 1) == 2 * pow2 k) as Hup.
  { rewrite pow2_add. change (pow2 1) with 2. ring. }
  assert (pow2 (k - 1 + 1) == pow2 k) as Hsame.
  { replace (k - 1 + 1)%Z with k by lia. reflexivity. }
  assert (pow2 k == 2 * pow2 (k - 1)) as Hdown.
  { rewrite <- Hsame at 1. rewrite pow2_add. change (pow2 1) with 2. ring. }
  pose proof (pow2_pos ld) as Hpld. pose proof (pow2_pos ln) as Hpln.
  pose proof (pow2_pos (k - 1)) as Hk1.
  rewrite (pow2_Z ln Hln) in *. rewrite (pow2_Z ld Hld) in *.
  assert (inject_Z (2 ^ ln) <= inject_Z n) as A1 by (rewrite <- Zle_Qle; exact Hn1).
  assert (inject_Z n < 2 * inject_Z (2 ^ ln)) as A2.
  { replace 2 with (inject_Z 2) by reflexivity. rewrite <- inject_Z_mult, <- Zlt_Qlt.
    rewrite Z.pow_succ_r in Hn2 by exact Hln. exact Hn2. }
  assert (inject_Z (2 ^ ld) <= inject_Z (Z.pos d)) as B1 by (rewrite <- Zle_Qle; exact Hd1).
  assert (inject_Z (Z.pos d) < 2 * inject_Z (2 ^ ld)) as B2.
  { replace 2 with (inject_Z 2) by reflexivity. rewrite <- inject_Z_mult, <- Zlt_Qlt.
    rewrite Z.pow_succ_r in Hd2 by exact Hld. exact Hd2. }
  assert (0 < inject_Z (Z.pos d)) as HD by (rewrite <- (Zlt_Qlt 0); lia).
  assert ((n # d) * inject_Z (Z.pos d) == inject_Z n) as Hxd.
  { rewrite (Qmake_Qdiv n d). field. lra. }
  set (X := n # d) in *. set (N := inject_Z n) in *. set (D := inject_Z (Z.pos d)) in *.
  set (A := inject_Z (2 ^ ln)) in *. set (B := inject_Z (2 ^ ld)) in *.
  assert (X < pow2 (k + 1)) as Hlt.
  { rewrite Hup. apply (Qmult_lt_r _ _ D HD). rewrite Hxd. nra. }
  assert (pow2 (k - 1) <= X) as Hge.
  { apply (Qmult_le_r _ _ D HD). rewrite Hxd. nra. }
  destruct (Qle_bool (pow2 k) X) eqn:Hb.
  - apply Qle_bool_iff in Hb. split; [exact Hb|exact Hlt].
  - assert (~ pow2 k <= X) as Hnb by (intros H; apply Qle_bool_iff in H; congruence).
    split; [exact Hge|]. rewrite Hsame. lra.
Qed.

Lemma ilog2_mono x y : 0 < x -> x <= y -> (ilog2 x <= ilog2 y)%Z.
Proof.
  intros Hx Hxy.
  destruct (ilog2_spec x Hx) as [H1 _].
  destruct (ilog2_spec y) as [_ H2]; [lra|].
  assert (pow2 (ilog2 x) < pow2 (ilog2 y + 1)) as H by lra.
  apply pow2_lt_inv in H. lia.
Qed.


Lemma round_pos_nonneg x : 0 < x -> 0 <= round_pos x.
Proof.
  intros Hx. unfold round_pos.
  pose proof (pow2_pos (exponent x)) as He.
  assert (0 <= rne (x / pow2 (exponent x)))%Z as Hr.
  { apply rne_ge. apply Qle_shift_div_l; [exact He|].
    change (inject_Z 0) with 0. lra. }
  rewrite Zle_Qle in Hr. change (inject_Z 0) with 0 in Hr. nra.
Qed.

Lemma round_pos_upper x : 0 < x -> round_pos x <= pow2 (exponent x + 53).
Proof.
  intros Hx. unfold round_pos.
  pose proof (pow2_pos (exponent x)) as He.
  destruct (ilog2_spec x Hx) as [_ Hu].
  assert (pow2 (ilog2 x + 1) <= pow2 (exponent x + 53)) as Hle.
  { apply pow2_mono. unfold exponent. lia. }
  rewrite (pow2_add (exponent x) 53) in Hle |- *.
  pose proof (pow2_Z 53 ltac:(lia)) as H53.
  assert (rne (x / pow2 (exponent x)) <= 2 ^ 53)%Z as Hr.
  { apply rne_le. apply Qle_shift_div_r; [exact He|]. rewrite <- H53. lra. }
  rewrite Zle_Qle in Hr. rewrite H53. nra.
Qed.

Lemma round_pos_lower x :
  0 < x -> (-1074 < exponent x)%Z -> pow2 (exponent x + 52) <= round_pos x.
Proof.
  intros Hx Hex. unfold round_pos.
  pose proof (pow2_pos (exponent x)) as He.
  destruct (ilog2_spec x Hx) as [Hl _].
  assert (ilog2 x = exponent x + 52)%Z as Heq by (unfold exponent in *; lia).
  rewrite Heq in Hl.
  rewrite (pow2_add (exponent x) 52) in Hl |- *.
  pose proof (pow2_Z 52 ltac:(lia)) as H52.
  assert (2 ^ 52 <= rne (x / pow2 (exponent x)))%Z as Hr.
  { apply rne_ge. apply Qle_shift_div_l; [exact He|]. rewrite <- H52. lra. }
  rewrite Zle_Qle in Hr. rewrite H52. nra.
Qed.

Lemma round_pos_mono x y : 0 < x -> x <= y -> round_pos x <= round_pos y.
Proof.
  intros Hx Hxy. assert (0 < y) as Hy by lra.
  assert (exponent x <= exponent y)%Z as He.
  { pose proof (ilog2_mono x y Hx Hxy). unfold exponent. lia. }
  destruct (Z.eq_dec (exponent x) (exponent y)) as [Heq|Hne].
  - unfold round_pos. rewrite <- Heq.
    pose proof (pow2_pos (exponent x)) as Hp.
    assert (rne (x / pow2 (exponent x)) <= rne (y / pow2 (exponent x)))%Z as Hr.
    { apply rne_mono. apply Qle_shift_div_l; [exact Hp|].
      assert (x / pow2 (exponent x) * pow2 (exponent x) == x) as E by (field; lra).
      rewrite E. exact Hxy. }
    rewrite Zle_Qle in Hr. nra.
  - apply Qle_trans with (pow2 (exponent x + 53)); [by apply round_pos_upper|].
    apply Qle_trans with (pow2 (exponent y + 52)).
    + apply pow2_mono. lia.
    + apply round_pos_lower; [exact Hy|]. unfold exponent in *. lia.
Qed.

Lemma round_real_mono x y : x <= y -> round_real x <= round_real y.
Proof.
  intros Hxy. unfold round_real.
  destruct (Qcompare_spec x 0) as [Hx|Hx|Hx];
  destruct (Qcompare_spec y 0) as [Hy|Hy|Hy]; try (exfalso; lra); try lra.
  - apply round_pos_nonneg, Hy.
  - pose proof (round_pos_nonneg (- x)). lra.
  - pose proof (round_pos_mono (- y) (- x)). lra.
  - pose proof (round_pos_nonneg (- x)). pose proof (round_pos_nonneg y). lra.
  - apply round_pos_mono; lra.
Qed.

Lemma round_real_Z k : (Z.abs k < 2 ^ 53)%Z -> round_real (inject_Z k) == inject_Z k.
Proof.
  assert (forall j, (0 < j < 2 ^ 53)%Z -> round_pos (inject_Z j) == inject_Z j) as Hpos.
  { intros j [Hj0 Hj]. unfold round_pos.
    assert (0 < inject_Z j) as Hq by (rewrite <- (Zlt_Qlt 0); exact Hj0).
    destruct (ilog2_spec (inject_Z j) Hq) as [Hl _].
    assert (ilog2 (inject_Z j) < 53)%Z as Hlog.
    { apply pow2_lt_inv. apply Qle_lt_trans with (inject_Z j); [exact Hl|].
      rewrite (pow2_Z 53) by lia. rewrite <- Zlt_Qlt. exact Hj. }
    set (e := exponent (inject_Z j)).
    assert (e <= 0)%Z as He by (unfold e, exponent; lia).
    pose proof (pow2_pos e) as Hp.
    assert (pow2 e * pow2 (- e) == 1) as Hinv.
    { rewrite <- pow2_add. replace (e + - e)%Z with 0%Z by lia. reflexivity. }
    assert (inject_Z j / pow2 e == inject_Z (j * 2 ^ (- e))) as Hs.
    { rewrite inject_Z_mult, <- (pow2_Z (- e)) by lia.
      apply (Qmult_inj_r _ _ (pow2 e)); [lra|].
      assert (inject_Z j / pow2 e * pow2 e == inject_Z j) as E by (field; lra).
      rewrite E, <- Qmult_assoc, (Qmult_comm (pow2 (- e))), Hinv. ring. }
    rewrite (rne_proper _ _ Hs), rne_Z, inject_Z_mult, <- (pow2_Z (- e)) by lia.
    rewrite <- Qmult_assoc, (Qmult_comm (pow2 (- e))), Hinv. ring. }
  intros Hk. unfold round_real.
  destruct (Qcompare_spec (inject_Z k) 0) as [H|H|H].
  - symmetry. exact H.
  - assert (k < 0)%Z as Hk0 by (rewrite (Zlt_Qlt k 0); exact H).
    rewrite <- inject_Z_opp, Hpos by lia. rewrite inject_Z_opp. ring.
  - assert (0 < k)%Z as Hk0 by (rewrite (Zlt_Qlt 0 k); exact H).
    apply Hpos. lia.
Qed.


Lemma round_real_opp x : round_real (- x) == - round_real x.
Proof.
  unfold round_real.
  destruct (Qcompare_spec x 0) as [Hx|Hx|Hx];
  destruct (Qcompare_spec (- x) 0) as [Hy|Hy|Hy]; try (exfalso; lra); try lra.
  assert (round_pos (- - x) == round_pos x) as E.
  { apply Qle_antisym; apply round_pos_mono; lra. }
  lra.
Qed.



End RoundingFacts.

Section DoubleFacts.

Import Double.
Local Open Scope Qc_scope.
Implicit Types (x y a b c : Qc) (u v : jsnum).

Lemma round_real_proper (p q : Q) : (p == q)%Q -> (round_real p == round_real q)%Q.
Proof.
  intros H. apply Qle_antisym; apply round_real_mono; rewrite H; apply Qle_refl.
Qed.

Lemma pow2_1024_pos : (0 < pow2 1024)%Q.
Proof. apply pow2_pos. Qed.

Lemma clip_mono (p q : Q) : (p <= q)%Q -> leb (clip p) (clip q) = true.
Proof.
  intros H. unfold clip. pose proof pow2_1024_pos as Hp.
  destruct (Qle_bool (pow2 1024) p) eqn:H1; destruct (Qle_bool (pow2 1024) q) eqn:H2;
  destruct (Qle_bool p (- pow2 1024)) eqn:H3; destruct (Qle_bool q (- pow2 1024)) eqn:H4;
    try reflexivity;
    repeat match goal with
    | H : Qle_bool _ _ = true |- _ => apply Qle_bool_iff in H
    | H : Qle_bool ?a ?b = false |- _ =>
        assert (~ (a <= b)%Q) by (intros ?%Qle_bool_iff; congruence); clear H
    end; try (exfalso; lra).
  simpl. apply bool_decide_eq_true. unfold Qcle. simpl.
  rewrite !Qred_correct. exact H.
Qed.

Lemma clip_finite (p : Q) c :
  (p == c)%Q -> (- pow2 1024 < c)%Q -> (c < pow2 1024)%Q -> clip p = Num c.
Proof.
  intros H H1 H2. unfold clip.
  destruct (Qle_bool (pow2 1024) p) eqn:E1; [apply Qle_bool_iff in E1; exfalso; lra|].
  destruct (Qle_bool p (- pow2 1024)) eqn:E2; [apply Qle_bool_iff in E2; exfalso; lra|].
  f_equal. apply Qc_is_canon. simpl. rewrite !Qred_correct. exact H.
Qed.

Lemma round64_mono x y : x ≤ y -> leb (round64 x) (round64 y) = true.
Proof. intros H. apply clip_mono, round_real_mono, H. Qed.

Lemma round64_Z (k : Z) : (Z.abs k < 2 ^ 53)%Z -> round64 (Qc_of_Z k) = Num (Qc_of_Z k).
Proof.
  intros Hk. unfold round64.
  assert (2 ^ 53 < 2 ^ 1024)%Z as Hbig by (apply Z.pow_lt_mono_r; lia).
  apply clip_finite; simpl.
  - by apply round_real_Z.
  - rewrite (pow2_Z 1024) by lia. rewrite <- inject_Z_opp, <- Zlt_Qlt. lia.
  - rewrite (pow2_Z 1024) by lia. rewrite <- Zlt_Qlt. lia.
Qed.

Lemma round64_not_NaN x : round64 x ≠ NaN.
Proof.
  intros H. pose proof (round64_mono x x (reflexivity _)) as Hm.
  rewrite H in Hm. discriminate.
Qed.








Lemma round64_half : round64 (Q2Qc (1 # 2)) = Num (Q2Qc (1 # 2)).
Proof. apply (bool_decide_unpack _); by vm_compute. Qed.


End DoubleFacts.


(** ** The reconciler *)

Section ReconcilerFacts.

Implicit Types (s : Store) (agents : list Agent) (a : Agent) (k : string).

Lemma get_own markers k :
  k ∈ dom markers → ∃ m, get markers k = Own m.
Proof.
  intros [m Hm]%elem_of_dom. exists m. unfold get. by rewrite Hm.
Qed.

Lemma get_plain markers k :
  k ∉ proto_keys → get markers k ≠ Inherited.
Proof.
  intros Hk. unfold get. destruct (markers !! k); [done|].
  by rewrite bool_decide_eq_false_2.
Qed.

Lemma upsert_plain a s :
  to_key (agent_id a) ∉ proto_keys →
  ∃ s', upsert a s = Returned s'
        ∧ dom (agentMarkers s') = {[to_key (agent_id a)]} ∪ dom (agentMarkers s).
Proof.
  intros Hk. unfold upsert.
  pose proof (get_plain (agentMarkers s) _ Hk) as Hg.
  destruct (get (agentMarkers s) (to_key (agent_id a))); [|done|];
    eexists; (split; [done|]); simpl; by rewrite dom_insert_L.
Qed.

Lemma forEach_upsert_plain agents s :
  plain_keys agents →
  ∃ s', forEach_upsert agents s = Returned s'
        ∧ dom (agentMarkers s') = list_to_set (keys_of agents) ∪ dom (agentMarkers s).
Proof.
  unfold plain_keys, keys_of. revert s.
  induction agents as [|a agents IH]; intros s Hp.
  - exists s. split; [done|]. simpl. set_solver.
  - rewrite fmap_cons in Hp. apply Forall_cons_1 in Hp as [Ha Hp]. simpl in *.
    destruct (upsert_plain a s Ha) as (s1 & -> & Hd1).
    destruct (IH s1 Hp) as (s2 & -> & Hd2).
    exists s2. split; [done|]. rewrite Hd2, Hd1. simpl. set_solver.
Qed.

Lemma dom_sweep ids s k :
  k ∈ dom (agentMarkers (sweep ids s)) ↔ k ∈ dom (agentMarkers s) ∧ IdStr k ∈ ids.
Proof.
  unfold sweep, set_has_key. simpl. rewrite !elem_of_dom. split.
  - intros [m [Hm HP]%map_lookup_filter_Some]. simpl in HP.
    apply bool_decide_eq_true in HP. eauto.
  - intros [[m Hm] Hin]. exists m. apply map_lookup_filter_Some. split; [done|].
    simpl. by apply bool_decide_eq_true.
Qed.

Lemma IdStr_in_ids agents k :
  IdStr k ∈ agent_id <$> agents → k ∈ keys_of agents.
Proof.
  unfold keys_of. intros H. apply list_elem_of_fmap in H as (a & Ha & Hin).
  apply list_elem_of_fmap. exists a. split; [|done]. simpl. by rewrite <- Ha.
Qed.

Lemma key_in_string_ids agents k :
  string_ids agents → k ∈ keys_of agents → IdStr k ∈ agent_id <$> agents.
Proof.
  unfold keys_of, string_ids. rewrite list.Forall_forall.
  intros Hs H. apply list_elem_of_fmap in H as (a & -> & Hin).
  apply list_elem_of_fmap. exists a. split; [|done].
  destruct (Hs a Hin) as [k Hk]. simpl. by rewrite Hk.
Qed.

(** After a snapshot is applied the rendered keys are exactly the ids of
    the snapshot that are strings: whatever was rendered before is gone,
    and so is every marker just created for a numeric id. *)
Lemma onmessage_rendered agents s :
  plain_keys agents →
  ∃ s', onmessage agents s = Returned s'
        ∧ ∀ k, k ∈ rendered s' ↔ IdStr k ∈ agent_id <$> agents.
Proof.
  intros Hp. unfold onmessage, rendered.
  destruct (forEach_upsert_plain agents s Hp) as (s1 & -> & Hd).
  eexists. split; [done|]. intros k. rewrite dom_sweep, Hd. split.
  - by intros [_ ?].
  - intros Hin. split; [|done]. apply IdStr_in_ids in Hin. set_solver.
Qed.

(** With string ids the rendered set is the snapshot's id set. *)
Lemma onmessage_string_ids agents s :
  plain_keys agents → string_ids agents →
  ∃ s', onmessage agents s = Returned s'
        ∧ rendered s' = list_to_set (keys_of agents).
Proof.
  intros Hp Hs. destruct (onmessage_rendered agents s Hp) as (s' & Hs' & Hr).
  exists s'. split; [done|]. apply set_eq. intros k.
  rewrite Hr, elem_of_list_to_set. split.
  - apply IdStr_in_ids.
  - by apply key_in_string_ids.
Qed.

(** An empty snapshot destroys every handle. *)
Lemma onmessage_empty s :
  ∃ s', onmessage [] s = Returned s' ∧ rendered s' = ∅.
Proof.
  destruct (onmessage_string_ids [] s) as (s' & Hs' & Hr);
    [by constructor | by constructor |].
  exists s'. by split.
Qed.

(** A handler's result depends on the store it starts from only through
    what it destroys: after any sequence of snapshots ending in one with
    string ids, the rendered set is that last snapshot's id set. *)
Lemma apply_all_last snaps agents s :
  plain_keys agents → string_ids agents →
  rendered (apply_all (snaps ++ [agents]) s) = list_to_set (keys_of agents).
Proof.
  intros Hp Hs. unfold apply_all. rewrite foldl_app. simpl.
  destruct (onmessage_string_ids agents
              (foldl (λ st snap, outcome_store (onmessage snap st)) s snaps) Hp Hs)
    as (s' & -> & Hr).
  done.
Qed.

Lemma upsert_present a s :
  to_key (agent_id a) ∈ dom (agentMarkers s) →
  ∃ s', upsert a s = Returned s'
        ∧ dom (agentMarkers s') = dom (agentMarkers s)
        ∧ ops s' = ops s ++ [Update (to_key (agent_id a))].
Proof.
  intros Hk. unfold upsert. destruct (get_own _ _ Hk) as [m ->].
  eexists. split; [done|]. simpl. split; [|done].
  rewrite dom_insert_L. set_solver.
Qed.

Lemma forEach_upsert_present agents s :
  Forall (λ k, k ∈ dom (agentMarkers s)) (keys_of agents) →
  ∃ s', forEach_upsert agents s = Returned s'
        ∧ dom (agentMarkers s') = dom (agentMarkers s)
        ∧ ops s' = ops s ++ (Update <$> keys_of agents).
Proof.
  unfold keys_of. revert s. induction agents as [|a agents IH]; intros s Hp.
  - exists s. simpl. by rewrite app_nil_r.
  - rewrite fmap_cons in Hp. apply Forall_cons_1 in Hp as [Ha Hp]. simpl in *.
    destruct (upsert_present a s Ha) as (s1 & -> & Hd1 & Ho1).
    destruct (IH s1) as (s2 & -> & Hd2 & Ho2).
    { by rewrite Hd1. }
    exists s2. split; [done|]. split; [congruence|].
    rewrite Ho2, Ho1, <- app_assoc. done.
Qed.

Lemma filter_none {A} (P : A → Prop) `{∀ x, Decision (P x)} (l : list A) :
  Forall (λ x, ¬ P x) l → filter P l = [].
Proof.
  induction 1 as [|x l Hx _ IH]; [done|]. by rewrite filter_cons_False.
Qed.

Lemma sweep_nothing_gone ids s :
  (∀ k, k ∈ dom (agentMarkers s) → IdStr k ∈ ids) →
  ops (sweep ids s) = ops s.
Proof.
  intros Hall. unfold sweep. simpl.
  assert (filter (λ kv : string * Marker, set_has_key ids kv.1 = false)
                 (map_to_list (agentMarkers s)) = []) as ->.
  { apply filter_none, list.Forall_forall. intros [k m] Hin. simpl.
    apply elem_of_map_to_list in Hin.
    assert (k ∈ dom (agentMarkers s)) as Hk by (apply elem_of_dom; eauto).
    unfold set_has_key. rewrite bool_decide_eq_true_2; [done|]. by apply Hall. }
  simpl. by rewrite app_nil_r.
Qed.

Lemma count_ops_app p l1 l2 :
  count_ops p (l1 ++ l2) = (count_ops p l1 + count_ops p l2)%nat.
Proof. unfold count_ops. by rewrite list.filter_app, length_app. Qed.

Lemma count_ops_updates p ks :
  (∀ k, p (Update k) = false) → count_ops p (Update <$> ks) = 0%nat.
Proof.
  intros Hp. unfold count_ops. induction ks as [|k ks IH]; [done|].
  rewrite fmap_cons, filter_cons_False; [done|]. by rewrite Hp.
Qed.

(** With string ids, applying the snapshot that was just applied only
    updates markers in place: nothing is created and nothing destroyed. *)
Lemma onmessage_again_string_ids agents s s1 :
  string_ids agents →
  onmessage agents s = Returned s1 →
  ∃ s2, onmessage agents s1 = Returned s2
        ∧ ops s2 = ops s1 ++ (Update <$> keys_of agents)
        ∧ rendered s2 = rendered s1
        ∧ count_ops is_create (ops s2) = count_ops is_create (ops s1)
        ∧ count_ops is_destroy (ops s2) = count_ops is_destroy (ops s1).
Proof.
  intros Hs H1.
  assert (∀ k, k ∈ dom (agentMarkers s1) ↔ IdStr k ∈ agent_id <$> agents) as Hdom.
  { unfold onmessage in H1.
    destruct (forEach_upsert agents s) as [s0|s0] eqn:Hf; [|done].
    injection H1 as <-. intros k. rewrite dom_sweep. split; [by intros [_ ?]|].
    intros Hin. split; [|done]. clear Hs.
    apply IdStr_in_ids in Hin. revert s s0 Hf Hin. unfold keys_of.
    induction agents as [|a agents IH]; intros s s0 Hf Hin; [by inversion Hin|].
    simpl in Hf. destruct (upsert a s) as [sa|sa] eqn:Hu; [|done].
    assert (to_key (agent_id a) ∈ dom (agentMarkers sa)) as Ha.
    { unfold upsert in Hu.
      destruct (get (agentMarkers s) (to_key (agent_id a))); simplify_eq;
        simpl; rewrite dom_insert_L; set_solver. }
    assert (∀ l t t', forEach_upsert l t = Returned t' →
                      dom (agentMarkers t) ⊆ dom (agentMarkers t')) as Hmono.
    { clear. induction l as [|b l IHl]; intros t t' Ht; simpl in Ht.
      - by simplify_eq.
      - destruct (upsert b t) as [tb|tb] eqn:Hb; [|done].
        etrans; [|by apply IHl]. unfold upsert in Hb.
        destruct (get (agentMarkers t) (to_key (agent_id b))); simplify_eq;
          simpl; rewrite dom_insert_L; set_solver. }
    rewrite fmap_cons in Hin. apply elem_of_cons in Hin as [->|Hin].
    - by apply (Hmono _ _ _ Hf).
    - by apply (IH sa s0). }
  destruct (forEach_upsert_present agents s1) as (s2 & Hf2 & Hd2 & Ho2).
  { apply list.Forall_forall. intros k Hk. apply Hdom. by apply key_in_string_ids. }
  exists (sweep (agent_id <$> agents) s2).
  assert (ops (sweep (agent_id <$> agents) s2) = ops s1 ++ (Update <$> keys_of agents)) as Hops.
  { rewrite sweep_nothing_gone; [done|]. intros k. rewrite Hd2. apply Hdom. }
  split; [unfold onmessage; by rewrite Hf2|]. split; [done|]. split.
  - unfold rendered. apply set_eq. intros k. rewrite dom_sweep, Hd2, Hdom. tauto.
  - rewrite Hops, !count_ops_app, !count_ops_updates by done. lia.
Qed.

End ReconcilerFacts.

(** ** The click controller *)

Section ControllerFacts.

Variable parseFloat : string → jsnum.

Implicit Types (s : UI) (e : LatLng) (p : Page).

Lemma latlng_eta e : mkLatLng (lat e) (lng e) = e.
Proof. by destruct e. Qed.

(** In a placement mode the listener returns before the selection logic:
    one request of that kind at the clicked point, the state as it was. *)
Lemma click_placing s k e :
  infraMode s = Some k →
  st (click parseFloat e s) = s
  ∧ threw (click parseFloat e s) = false
  ∧ ∃ rq, sent (click parseFloat e s) = [rq]
          ∧ added_kind rq = Some k ∧ added_at rq = Some e.
Proof.
  intros Hk. unfold click. rewrite Hk.
  destruct k; simpl; (split; [done|]); (split; [done|]);
    eexists; (split; [done|]); simpl; by rewrite latlng_eta.
Qed.

(** The falsy numbers are [NaN] and zero. *)
Lemma truthy_num_false n :
  truthy_num n = false ↔ n = NaN ∨ n = Num 0%Qc.
Proof.
  destruct n as [| |x]; simpl.
  - split; [by left|done].
  - split; [done|]. by intros [|].
  - rewrite negb_false_iff, bool_decide_eq_true. split.
    + intros ->. by right.
    + intros [|]; by simplify_eq.
Qed.

Lemma or_null_Some x n :
  or_null x = Some n ↔ x = n ∧ n ≠ NaN ∧ n ≠ Num 0%Qc.
Proof.
  unfold or_null. destruct (truthy_num x) eqn:Ht.
  - split.
    + intros [= <-]. split; [done|].
      split; intros ->; [done|]. by vm_compute in Ht.
    + by intros [-> _].
  - apply truthy_num_false in Ht. split; [done|]. intros (-> & ? & ?).
    by destruct Ht.
Qed.

Lemma or_null_None x :
  or_null x = None ↔ x = NaN ∨ x = Num 0%Qc.
Proof.
  rewrite <- truthy_num_false. unfold or_null. by destruct (truthy_num x).
Qed.

(** C2. The forgiving two-click flow: from Idle with nothing picked, the
    first click sets the source and returns to Idle; the second sets the
    destination, requests a preview for (source, destination) and returns
    to Idle; a third click, whether or not the preview has arrived, sets
    the source to the new point and clears destination and preview. *)
Theorem two_click_flow s (a b c : LatLng) (d : PreviewData) :
  selecting s = None → infraMode s = None →
  sourceLatLng s = None → destLatLng s = None →
  let r1 := click parseFloat a s in
  let r2 := click parseFloat b (st r1) in
  let r3 := click parseFloat c (st r2) in
  let r3' := click parseFloat c (onPreview d (st r2)) in
  (sourceLatLng (st r1) = Some a ∧ destLatLng (st r1) = None
   ∧ selecting (st r1) = None ∧ infraMode (st r1) = None
   ∧ sent r1 = [] ∧ threw r1 = false)
  ∧ (sourceLatLng (st r2) = Some a ∧ destLatLng (st r2) = Some b
     ∧ selecting (st r2) = None ∧ infraMode (st r2) = None
     ∧ sent r2 = [RoutePreview 1 (lat a) (lng a) (lat b) (lng b)]
     ∧ threw r2 = false)
  ∧ (sourceLatLng (st r3) = Some c ∧ destLatLng (st r3) = None
     ∧ routeLine (st r3) = None
     ∧ selecting (st r3) = None ∧ infraMode (st r3) = None
     ∧ sent r3 = [] ∧ threw r3 = false)
  ∧ (sourceLatLng (st r3') = Some c ∧ destLatLng (st r3') = None
     ∧ routeLine (st r3') = None
     ∧ selecting (st r3') = None ∧ infraMode (st r3') = None
     ∧ sent r3' = [] ∧ threw r3' = false).
Proof.
  intros Hsel Hmode Hsrc Hdst. destruct s; simpl in *; subst.
  unfold click; simpl.
  split; [done|]. split; [done|]. split; [done|].
  destruct d as [[pts|]| |]; done.
Qed.

(** C6. In PlacingInfra(kind) every map click emits exactly one add
    request of that kind at the clicked coordinate and leaves the whole
    page state as it was: the mode is still PlacingInfra(kind) and source,
    destination and preview are unchanged.  So a second click does the
    same again. *)
Theorem placing_infra_clicks s k (e1 e2 : LatLng) :
  infraMode s = Some k →
  let r1 := click parseFloat e1 s in
  let r2 := click parseFloat e2 (st r1) in
  (st r1 = s ∧ infraMode (st r1) = Some k ∧ threw r1 = false
   ∧ ∃ rq, sent r1 = [rq] ∧ added_kind rq = Some k ∧ added_at rq = Some e1)
  ∧ (st r2 = s ∧ infraMode (st r2) = Some k ∧ threw r2 = false
     ∧ ∃ rq, sent r2 = [rq] ∧ added_kind rq = Some k ∧ added_at rq = Some e2).
Proof.
  intros Hk r1 r2.
  destruct (click_placing s k e1 Hk) as (H1 & Ht1 & Hr1).
  assert (st r2 = s ∧ threw r2 = false
          ∧ ∃ rq, sent r2 = [rq] ∧ added_kind rq = Some k ∧ added_at rq = Some e2)
    as (H2 & Ht2 & Hr2).
  { subst r2 r1. rewrite H1. by apply click_placing. }
  subst r1 r2. repeat split; try done; congruence.
Qed.

(** C10. A toll placement click sends the fee as [parseFloat(text) || null]:
    the parsed number when it is truthy, [null] when the parse gives [NaN]
    or zero, so an entered fee of 0 goes out as [null] exactly as an
    unparsable one does. *)
Theorem toll_fee_or_null s (e : LatLng) :
  infraMode s = Some Toll →
  let parsed := parseFloat (tollFeeValue s) in
  ∃ fee, sent (click parseFloat e s) = [AddTollGate (lng e) (lat e) fee]
         ∧ (truthy_num parsed = true → fee = Some parsed)
         ∧ (truthy_num parsed = false → fee = None)
         ∧ (∀ n, fee = Some n ↔ parsed = n ∧ n ≠ NaN ∧ n ≠ Num 0%Qc)
         ∧ (fee = None ↔ parsed = NaN ∨ parsed = Num 0%Qc).
Proof.
  intros Hk parsed. exists (or_null parsed).
  split; [unfold click; by rewrite Hk|].
  split; [unfold or_null; by intros ->|].
  split; [unfold or_null; by intros ->|].
  split; [intros n; apply or_null_Some | apply or_null_None].
Qed.

(** C5 (as the code has it). The selection mode and the placement mode
    are two independent variables: pressing a selection button leaves the
    placement mode as it was, setting the placement mode leaves the
    selection mode as it was; with both active a map click is resolved as
    a placement and leaves both modes active. *)
Theorem modes_independent s (mode : option InfraKind) (k : InfraKind) (e : LatLng) :
  (selecting (selectSourceClick s) = Some SelSource
   ∧ infraMode (selectSourceClick s) = infraMode s)
  ∧ (selecting (selectDestClick s) = Some SelDest
     ∧ infraMode (selectDestClick s) = infraMode s)
  ∧ (infraMode (setInfraMode mode s) = mode
     ∧ selecting (setInfraMode mode s) = selecting s)
  ∧ (infraMode s = Some k →
     st (click parseFloat e s) = s
     ∧ ∃ rq, sent (click parseFloat e s) = [rq] ∧ added_kind rq = Some k).
Proof.
  split; [done|]. split; [done|]. split; [done|]. intros Hk.
  destruct (click_placing s k e Hk) as (? & _ & rq & ? & ? & _); eauto.
Qed.

(** C3 (as the code has it). A preview response is not checked against the
    current selection: when it arrives with [ok] and points it becomes the
    rendered preview whatever source and destination are by then; with
    [ok] but no points the old preview is removed; a response without [ok]
    or a failed fetch changes nothing.  The selection itself is never
    touched. *)
Theorem preview_rendered_on_arrival p (i : nat) (rq : LatLng * LatLng) (d : PreviewData) :
  inflight p !! i = Some rq →
  let p' := step parseFloat (PreviewArrives i d) p in
  match d with
  | PreviewOk (Some pts) => routeLine (ui p') = Some (latlngs pts)
  | PreviewOk None => routeLine (ui p') = None
  | PreviewNotOk | PreviewFailed => ui p' = ui p
  end
  ∧ sourceLatLng (ui p') = sourceLatLng (ui p)
  ∧ destLatLng (ui p') = destLatLng (ui p)
  ∧ inflight p' = delete i (inflight p).
Proof.
  intros Hi. simpl. rewrite Hi. simpl. by destruct d as [[pts|]| |].
Qed.

End ControllerFacts.

Lemma two_click_flow_witness :
  let r1 := click parseFloat_sample pointA initial in
  let r2 := click parseFloat_sample pointB (st r1) in
  let r3 := click parseFloat_sample pointC (st r2) in
  sent r2 = [RoutePreview 1 (lat pointA) (lng pointA) (lat pointB) (lng pointB)]
  ∧ sourceLatLng (st r3) = Some pointC ∧ destLatLng (st r3) = None.
Proof.
  pose proof (two_click_flow parseFloat_sample initial pointA pointB pointC PreviewFailed
                eq_refl eq_refl eq_refl eq_refl) as H.
  simpl in H. destruct H as (_ & H2 & H3 & _).
  split; [apply H2|]. split; apply H3.
Defined.


Lemma placing_infra_clicks_witness :
  infraMode placing_tower = Some Tower
  ∧ sent (click parseFloat_sample pointA placing_tower)
    = [AddMobileTower (lng pointA) (lat pointA) (Num (Q2Qc (1 # 100)))]
  ∧ st (click parseFloat_sample pointB
          (st (click parseFloat_sample pointA placing_tower))) = placing_tower.
Proof.
  split; [reflexivity|].
  pose proof (placing_infra_clicks parseFloat_sample placing_tower Tower
                pointA pointB eq_refl) as [_ (H2 & _)].
  split; [reflexivity | exact H2].
Defined.

Lemma toll_fee_or_null_witness :
  infraMode placing_toll_zero = Some Toll
  ∧ sent (click parseFloat_sample pointA placing_toll_zero)
    = [AddTollGate (lng pointA) (lat pointA) None].
Proof.
  split; [reflexivity|].
  destruct (toll_fee_or_null parseFloat_sample placing_toll_zero pointA eq_refl)
    as (fee & Hsent & _ & Hnone & _).
  rewrite Hsent, Hnone; reflexivity.
Defined.

Lemma modes_independent_witness :
  infraMode placing_tower = Some Tower
  ∧ st (click parseFloat_sample pointA (selectSourceClick placing_tower))
    = selectSourceClick placing_tower.
Proof.
  split; [reflexivity|].
  apply (modes_independent parseFloat_sample (selectSourceClick placing_tower)
           None Tower pointA).
  reflexivity.
Defined.

(** ** The preview invariant *)

Section PreviewFacts.

Variable parseFloat : string → jsnum.

Implicit Types (s : UI) (e : LatLng) (p : Page).

(** The selection branches of the click listener, by what they do to the
    preview: it is removed, or nothing was drawn and nothing is, or a
    destination pick in SelectingDest leaves the picture alone. *)
Lemma click_preview s e :
  preview_needs_both s →
  preview_needs_both (st (click parseFloat e s))
  ∧ (sourceLatLng (st (click parseFloat e s)) ≠ sourceLatLng s
     ∨ destLatLng (st (click parseFloat e s)) ≠ destLatLng s →
     routeLine (st (click parseFloat e s)) = None
     ∨ (selecting s = Some SelDest ∧ destLatLng s ≠ None
        ∧ sourceLatLng (st (click parseFloat e s)) = sourceLatLng s
        ∧ routeLine (st (click parseFloat e s)) = routeLine s)).
Proof.
  unfold preview_needs_both, click.
  destruct s as [sel src dst sm dm rl mode a1 a2 tr tf]; simpl.
  intros Hinv.
  destruct mode as [[]|]; simpl; [naive_solver..|].
  destruct sel as [[]|], src as [src|], dst as [dst|]; simpl;
    try naive_solver;
    destruct rl as [rl|]; naive_solver.
Qed.

Lemma step_preview_needs_both p ev :
  preview_needs_both (ui p) →
  (∀ i d, ev = PreviewArrives i d → fresh p i) →
  preview_needs_both (ui (step parseFloat ev p)).
Proof.
  intros Hinv Hfresh. destruct ev as [e| | | |mode|v|v|i d]; simpl.
  - by apply click_preview.
  - done.
  - done.
  - unfold preview_needs_both. simpl. done.
  - done.
  - done.
  - done.
  - destruct (Hfresh i d eq_refl) as (src & dst & -> & Hs & Hd). simpl.
    unfold preview_needs_both.
    destruct d as [[pts|]| |]; simpl; rewrite ?Hs, ?Hd; try done.
Qed.

Lemma reachable_fresh_needs_both p :
  reachable_fresh parseFloat p → preview_needs_both (ui p).
Proof.
  induction 1 as [|p ev _ IH Hfresh].
  - unfold preview_needs_both. simpl. done.
  - by apply step_preview_needs_both.
Qed.

(** C4 (as the code has it). As long as no preview response arrives after
    the selection it was requested for has changed, a preview is rendered
    only when both source and destination are set, and an event that
    changes or clears the source or the destination leaves no preview
    rendered, except a destination pick made in SelectingDest over an
    existing destination, which keeps the old preview on the map.  The
    clear-route command and the reset click always remove the preview. *)
Theorem preview_invariant_fresh p :
  reachable_fresh parseFloat p →
  preview_needs_both (ui p)
  ∧ (∀ ev, changes_selection parseFloat ev p →
       routeLine (ui (step parseFloat ev p)) = None
       ∨ (selecting (ui p) = Some SelDest ∧ destLatLng (ui p) ≠ None
          ∧ sourceLatLng (ui (step parseFloat ev p)) = sourceLatLng (ui p)
          ∧ routeLine (ui (step parseFloat ev p)) = routeLine (ui p)))
  ∧ routeLine (clearRouteSelection (ui p)) = None.
Proof.
  intros Hreach. pose proof (reachable_fresh_needs_both p Hreach) as Hinv.
  split; [done|]. split; [|done].
  intros ev Hch. unfold changes_selection in Hch.
  destruct ev as [e| | | |mode|v|v|i d]; simpl in *.
  - by apply click_preview.
  - by destruct Hch.
  - by destruct Hch.
  - by left.
  - by destruct Hch.
  - by destruct Hch.
  - by destruct Hch.
  - destruct (inflight p !! i); [|by destruct Hch].
    simpl in Hch. destruct d as [[pts|]| |]; simpl in Hch; by destruct Hch.
Qed.

(** A destination pick in SelectingDest never touches the preview. *)
Lemma repick_dest_keeps_preview s e :
  infraMode s = None → selecting s = Some SelDest →
  routeLine (st (click parseFloat e s)) = routeLine s
  ∧ destLatLng (st (click parseFloat e s)) = Some e.
Proof.
  intros Hm Hs. unfold click. rewrite Hm, Hs. simpl.
  by destruct (sourceLatLng s).
Qed.

End PreviewFacts.

(** ** The density renderer *)

Section DensityFacts.

Local Open Scope Qc_scope.

Implicit Types (w lo hi r : Qc) (ws : list Qc) (tiles : list Tile).

Lemma Math_floor_scaled (a : Z) (b : positive) (m : Z) :
  Math_floor (Q2Qc (a # b) * Qc_of_Z m) = (a * m / Z.pos b)%Z.
Proof.
  unfold Math_floor, Qcmult, Q2Qc, Qc_of_Z. cbn [this].
  rewrite (Qfloor_comp _ ((a # b) * inject_Z m)%Q).
  - unfold Qfloor, Qmult, inject_Z. cbn [Qnum Qden]. by rewrite Pos.mul_1_r.
  - rewrite Qred_correct. by rewrite (Qred_correct (a # b)).
Qed.

(** For a non-empty array the clamp in [q] is idle and the index is the
    floor of [p * (N - 1)]. *)
Lemma q_index_p05 (n : nat) :
  (0 < n)%nat → q_index n p05 = ((Z.of_nat n - 1) / 20)%Z.
Proof.
  intros Hn. unfold q_index, p05. rewrite Math_floor_scaled.
  change 100%Z with (5 * 20)%Z. rewrite Z.div_mul_cancel_l by lia.
  pose proof (Z.div_pos (Z.of_nat n - 1) 20).
  pose proof (Z.div_le_upper_bound (Z.of_nat n - 1) 20 (Z.of_nat n - 1)).
  lia.
Qed.

Lemma q_index_p95 (n : nat) :
  (0 < n)%nat → q_index n p95 = (19 * (Z.of_nat n - 1) / 20)%Z.
Proof.
  intros Hn. unfold q_index, p95. rewrite Math_floor_scaled.
  change 95%Z with (5 * 19)%Z. change 100%Z with (5 * 20)%Z.
  rewrite <- Z.mul_assoc, Z.div_mul_cancel_l by lia.
  pose proof (Z.div_pos (19 * (Z.of_nat n - 1)) 20).
  pose proof (Z.div_le_upper_bound (19 * (Z.of_nat n - 1)) 20 (Z.of_nat n - 1)).
  lia.
Qed.

Lemma q_index_order (n : nat) :
  (0 < n)%nat →
  (0 ≤ q_index n p05 ≤ q_index n p95)%Z ∧ (q_index n p95 < Z.of_nat n)%Z.
Proof.
  intros Hn. rewrite q_index_p05, q_index_p95 by done.
  pose proof (Z.div_pos (Z.of_nat n - 1) 20).
  pose proof (Z.div_le_mono (Z.of_nat n - 1) (19 * (Z.of_nat n - 1)) 20).
  pose proof (Z.div_le_upper_bound (19 * (Z.of_nat n - 1)) 20 (Z.of_nat n - 1)).
  lia.
Qed.

Lemma sorted_lookup_le ws (i j : nat) x y :
  StronglySorted Qcle ws → (i ≤ j)%nat →
  ws !! i = Some x → ws !! j = Some y → x ≤ y.
Proof.
  intros Hs. revert i j. induction Hs as [|z ws Hs IH Hall]; intros i j Hij Hi Hj.
  - done.
  - destruct i as [|i], j as [|j]; simpl in *; simplify_eq.
    + apply Qcle_refl.
    + rewrite list.Forall_forall in Hall. apply Hall.
      by apply list_elem_of_lookup_2 in Hj.
    + lia.
    + apply (IH i j); [lia|done..].
Qed.

Lemma sorted_weights_sorted tiles : StronglySorted Qcle (sorted_weights tiles).
Proof. apply StronglySorted_merge_sort; apply _. Qed.

Lemma sorted_weights_perm tiles : sorted_weights tiles ≡ₚ weight <$> tiles.
Proof. apply merge_sort_Permutation. Qed.

Lemma sorted_weights_length tiles : length (sorted_weights tiles) = length tiles.
Proof. by rewrite sorted_weights_perm, length_fmap. Qed.

(** With tiles present both percentiles are defined and in order. *)
Lemma q_nonempty tiles :
  tiles ≠ [] →
  ∃ lo hi, q (sorted_weights tiles) p05 = Some lo
           ∧ q (sorted_weights tiles) p95 = Some hi
           ∧ lo ≤ hi.
Proof.
  intros Hne. unfold q. rewrite sorted_weights_length.
  assert (0 < length tiles)%nat as Hn by (destruct tiles; [done|simpl; lia]).
  destruct (q_index_order _ Hn) as [[H0 H1] H2].
  destruct (lookup_lt_is_Some_2 (sorted_weights tiles)
              (Z.to_nat (q_index (length tiles) p05))) as [lo Hlo].
  { rewrite sorted_weights_length. lia. }
  destruct (lookup_lt_is_Some_2 (sorted_weights tiles)
              (Z.to_nat (q_index (length tiles) p95))) as [hi Hhi].
  { rewrite sorted_weights_length. lia. }
  exists lo, hi. split; [done|]. split; [done|].
  eapply sorted_lookup_le; [apply sorted_weights_sorted| |done..]. lia.
Qed.

Lemma Qc_0_le_1 : 0 ≤ 1.
Proof. by vm_compute. Qed.

Lemma range_of_pos lo hi : lo ≤ hi → 0 < range_of lo hi.
Proof.
  intros Hle. unfold range_of. case_decide as Hz; [done|].
  destruct (Qcle_lt_or_eq _ _ Hle) as [Hlt| ->].
  - by apply Qclt_minus_iff in Hlt.
  - exfalso. apply Hz. apply Qcplus_opp_r.
Qed.

Lemma range_of_lt lo hi : lo < hi → range_of lo hi = hi - lo.
Proof.
  intros Hlt. unfold range_of. case_decide as Hz; [|done].
  apply Qclt_minus_iff in Hlt. unfold Qcminus in Hz. rewrite Hz in Hlt.
  by apply Qclt_not_eq in Hlt.
Qed.


Lemma div_mul_cancel x r : 0 < r → x / r * r = x.
Proof.
  intros Hr. rewrite Qcmult_comm. apply Qcmult_div_r.
  intros ->. by apply Qclt_not_eq in Hr.
Qed.


End DensityFacts.

(** * The density renderer in double arithmetic *)

Ltac qc_lra :=
  unfold Qcle, Qclt, Qcminus in *;
  cbn [this Qcplus Qcmult Qcopp Q2Qc Qc_of_Z] in *;
  rewrite ?Qred_correct in *; unfold inject_Z in *; lra.


Section RenderFacts.

Import Double Render.
Local Open Scope Qc_scope.

Implicit Types (w lo hi x y a b c e : Qc) (u v : jsnum) (tiles : list Tile) (t : Tile).

Lemma leb_Num_r u c :
  leb u (Num c) = true → u = Infinity true ∨ ∃ a, u = Num a ∧ a ≤ c.
Proof.
  destruct u as [|[]|a]; simpl; try done; [by left|].
  intros H%bool_decide_eq_true. right. eauto.
Qed.

Lemma leb_Num_l c u :
  leb (Num c) u = true → u = Infinity false ∨ ∃ a, u = Num a ∧ c ≤ a.
Proof.
  destruct u as [|[]|a]; simpl; try done; [by left|].
  intros H%bool_decide_eq_true. right. eauto.
Qed.

Lemma round64_le x c :
  x ≤ c → is_double c →
  round64 x = Infinity true ∨ ∃ a, round64 x = Num a ∧ a ≤ c.
Proof.
  intros H Hc. apply leb_Num_r. rewrite <- Hc. by apply round64_mono.
Qed.

Lemma round64_ge x c :
  c ≤ x → is_double c →
  round64 x = Infinity false ∨ ∃ a, round64 x = Num a ∧ c ≤ a.
Proof.
  intros H Hc. apply leb_Num_l. rewrite <- Hc. by apply round64_mono.
Qed.

Lemma round64_between x c1 c2 :
  c1 ≤ x → x ≤ c2 → is_double c1 → is_double c2 →
  ∃ a, round64 x = Num a ∧ c1 ≤ a ∧ a ≤ c2.
Proof.
  intros H1 H2 Hc1 Hc2.
  destruct (round64_le x c2 H2 Hc2) as [Hx|(a & Hx & Ha)];
  destruct (round64_ge x c1 H1 Hc1) as [Hy|(b & Hy & Hb)];
    rewrite Hx in Hy; try done.
  injection Hy as <-. eauto.
Qed.

Lemma is_double_Z (k : Z) : (Z.abs k < 2 ^ 53)%Z → is_double (Qc_of_Z k).
Proof. apply round64_Z. Qed.



Lemma Qc_of_Z_0 : Qc_of_Z 0 = 0.
Proof. by apply Qc_is_canon. Qed.

Lemma Qc_of_Z_1 : Qc_of_Z 1 = 1.
Proof. by apply Qc_is_canon. Qed.




Lemma Qc_div_mono a b c : 0 < c → a ≤ b → a / c ≤ b / c.
Proof.
  intros Hc Hab. apply (Qcmult_le_mono_pos_r _ _ c Hc).
  by rewrite !div_mul_cancel.
Qed.


(** The range is positive: a positive double or [Infinity]. *)
Lemma range_of_cases lo hi :
  lo ≤ hi →
  (range_of lo hi = Infinity false ∧ fsub (Num hi) (Num lo) = Infinity false)
  ∨ ∃ c, range_of lo hi = Num c ∧ 0 < c.
Proof.
  intros Hle. unfold range_of, fsub. cbn [fneg fadd].
  destruct (round64_ge (hi + - lo) (Qc_of_Z 0)) as [Hr|(a & Hr & Ha)].
  - qc_lra.
  - by apply is_double_Z.
  - left. by rewrite Hr.
  - right. rewrite Hr. unfold or_num. cbn [truthy_num].
    destruct (decide (a = 0)) as [->|Hne].
    + rewrite bool_decide_eq_true_2 by done. exists (Qc_of_Z 1). split; [done|].
      by vm_compute.
    + rewrite bool_decide_eq_false_2 by done. exists a. split; [done|].
      rewrite Qc_of_Z_0 in Ha. apply Qcle_lt_or_eq in Ha as [?|?]; [done|].
      by destruct Hne.
Qed.










(** *** What is drawn for a tile *)



Lemma render_tile_shape h3 lo (r : jsnum) t sh :
  sh ∈ draw_tile h3 lo r t →
  shape_tip sh = mkTooltip (h3_index t) (weight t)
                           (fmul (normalize lo r (weight t)) (of_Z 100))
  ∧ shape_fill sh = colorForWeight (normalize lo r (weight t))
  ∧ (∀ rad, shape_radius sh = Some rad →
            rad = fadd (of_Z 50) (fmul (normalize lo r (weight t)) (of_Z 200))).
Proof.
  unfold draw_tile, draw_disc.
  destruct h3 as [f|]; [destruct (truthy_str (h3_index t))|].
  - destruct (f _) as [poly|]; [|by intros ?%elem_of_nil].
    intros ->%list_elem_of_singleton. by repeat split.
  - destruct (truthy_opt (tile_lat t) && truthy_opt (tile_lon t));
      [|by intros ?%elem_of_nil].
    intros ->%list_elem_of_singleton. repeat split. by intros ? [= <-].
  - destruct (truthy_opt (tile_lat t) && truthy_opt (tile_lon t));
      [|by intros ?%elem_of_nil].
    intros ->%list_elem_of_singleton. repeat split. by intros ? [= <-].
Qed.

Lemma render_drawHexes h3 tiles old lo hi :
  q (sorted_weights tiles) p05 = Some lo →
  q (sorted_weights tiles) p95 = Some hi →
  drawHexes h3 tiles (Some old) = Some (tiles ≫= draw_tile h3 lo (range_of lo hi)).
Proof.
  intros Hlo Hhi. unfold drawHexes. destruct tiles as [|t0 ts] eqn:Ht; [done|].
  by rewrite Hlo, Hhi.
Qed.


End RenderFacts.





(** ** Counterexamples to the guards the code does not have *)

(** C3 fails on the code: after three clicks the preview requested for
    (A, B) is still in flight while the selection is (C, none); when it
    arrives it is drawn all the same. *)
Lemma stale_preview_is_rendered :
  let p := run parseFloat_sample three_clicks start in
  let d := PreviewOk (Some [(lng pointB, lat pointB)]) in
  (inflight p !! 0%nat = Some (pointA, pointB)
   ∧ sourceLatLng (ui p) = Some pointC ∧ destLatLng (ui p) = None
   ∧ routeLine (ui p) = None
   ∧ routeLine (ui (step parseFloat_sample (PreviewArrives 0 d) p)) = Some [pointB])
  ∧ ¬ stale_responses_discarded parseFloat_sample.
Proof.
  assert (routeLine (ui (step parseFloat_sample
            (PreviewArrives 0 (PreviewOk (Some [(lng pointB, lat pointB)])))
            (run parseFloat_sample three_clicks start))) = Some [pointB]) as Hdrawn
    by reflexivity.
  split; [by repeat split|].
  intros Hclaim.
  specialize (Hclaim (run parseFloat_sample three_clicks start) 0%nat
                (PreviewOk (Some [(lng pointB, lat pointB)])) pointA pointB).
  rewrite Hdrawn in Hclaim. discriminate Hclaim.
  - by exists three_clicks.
  - reflexivity.
  - by intros [_ ?].
Qed.

Lemma preview_rendered_on_arrival_witness :
  let p := run parseFloat_sample three_clicks start in
  inflight p !! 0%nat = Some (pointA, pointB)
  ∧ routeLine (ui (step parseFloat_sample
       (PreviewArrives 0 (PreviewOk (Some [(lng pointB, lat pointB)]))) p))
    = Some [pointB].
Proof.
  split; [reflexivity|].
  apply (preview_rendered_on_arrival parseFloat_sample
           (run parseFloat_sample three_clicks start) 0 (pointA, pointB)
           (PreviewOk (Some [(lng pointB, lat pointB)]))).
  reflexivity.
Defined.

(** C5 fails on the code: the gateway button followed by the source button
    leaves a selection mode and a placement mode active together. *)
Lemma selection_and_placement_both_active :
  let p := run parseFloat_sample gateway_then_source start in
  reachable parseFloat_sample p
  ∧ selecting (ui p) = Some SelSource ∧ infraMode (ui p) = Some Gateway
  ∧ ¬ modes_exclusive (ui p).
Proof.
  split; [by exists gateway_then_source|].
  split; [reflexivity|]. split; [reflexivity|].
  intros H. apply H. by split.
Qed.

(** Reachability along a concrete trace: peel the events off one by one;
    only the arrival of a response leaves an obligation. *)
Ltac peel_events :=
  unfold run; cbn [foldl];
  repeat (apply rf_step; [|try by intros ?? [=]]);
  [apply rf_start|..].

Lemma route_shown_reachable_fresh :
  reachable_fresh parseFloat_sample
    (run parseFloat_sample route_shown_then_dest_button start).
Proof.
  unfold route_shown_then_dest_button. peel_events.
  intros i d [= <- <-]. exists pointA, pointB. by repeat split.
Qed.

(** C4 fails on the code in both halves.  A preview that arrives after the
    third click is drawn although no destination is set; and with a route
    shown, the destination button followed by a click moves the
    destination while the old preview stays on the map. *)
Lemma preview_without_destination_and_kept_on_repick :
  (let p := run parseFloat_sample
              (three_clicks ++ [PreviewArrives 0 (PreviewOk (Some [(lng pointB, lat pointB)]))])
              start in
   reachable parseFloat_sample p
   ∧ routeLine (ui p) = Some [pointB] ∧ destLatLng (ui p) = None
   ∧ ¬ preview_needs_both (ui p))
  ∧ (let p := run parseFloat_sample route_shown_then_dest_button start in
     let p' := step parseFloat_sample (MapClick pointC) p in
     reachable_fresh parseFloat_sample p
     ∧ changes_selection parseFloat_sample (MapClick pointC) p
     ∧ destLatLng (ui p) = Some pointB ∧ destLatLng (ui p') = Some pointC
     ∧ routeLine (ui p) = Some [pointB] ∧ routeLine (ui p') = Some [pointB]).
Proof.
  split.
  - split; [by eexists|]. split; [reflexivity|]. split; [reflexivity|].
    intros H. by destruct H.
  - split; [apply route_shown_reachable_fresh|].
    split; [right; by vm_compute|]. by repeat split.
Qed.

Lemma preview_invariant_fresh_witness :
  let p := run parseFloat_sample route_shown_then_dest_button start in
  reachable_fresh parseFloat_sample p
  ∧ routeLine (ui p) = Some [pointB]
  ∧ sourceLatLng (ui p) ≠ None ∧ destLatLng (ui p) ≠ None.
Proof.
  pose proof route_shown_reachable_fresh as Hr.
  split; [exact Hr|]. split; [reflexivity|].
  apply (preview_invariant_fresh parseFloat_sample _ Hr). discriminate.
Defined.


(** ** Failed requests *)

(** A failed or rejected preview leaves the page as it was. *)
Lemma failed_preview_keeps_state (s : UI) :
  onPreview PreviewFailed s = s ∧ onPreview PreviewNotOk s = s.
Proof. done. Qed.

(** A failed prediction fetch leaves the density layer as drawn and puts
    the error on the status line. *)
Lemma failed_prediction_keeps_layer h3 (r : Fetched) (v : View) :
  (∀ tiles total, r ≠ Json tiles total) →
  hexLayer (runPrediction h3 r v) = hexLayer v
  ∧ ∃ msg, status (runPrediction h3 r v) = StatusError msg.
Proof.
  intros Hr. destruct r as [msg|code text|msg|tiles total]; simpl; eauto.
  by destruct (Hr tiles total).
Qed.

(** C9 on the code: when the infra-stats fetch fails, [loadInfrastructure]
    still clears the three layer groups, so everything drawn before is
    gone; with one gateway on the map the failed refresh leaves none. *)
Theorem failed_infra_fetch_clears_layers (l : Layers) :
  loadInfrastructure None l = mkLayers [] [] []
  ∧ drawn (loadInfrastructure None l) = 0%nat
  ∧ drawn one_gateway = 1%nat
  ∧ loadInfrastructure None one_gateway ≠ one_gateway.
Proof. done. Qed.

(** ** Numeric ids *)

(** When every id of the snapshot is a number, nothing is rendered after
    the snapshot has been applied. *)
Lemma onmessage_numeric_ids (agents : list Agent) (s : Store) :
  plain_keys agents →
  Forall (λ a, ∃ n, agent_id a = IdNum n) agents →
  ∃ s', onmessage agents s = Returned s' ∧ rendered s' = ∅.
Proof.
  intros Hp Hn. destruct (onmessage_rendered agents s Hp) as (s' & Hs' & Hr).
  exists s'. split; [done|]. apply set_eq. intros k. rewrite Hr.
  split; [|set_solver]. intros Hin.
  apply list_elem_of_fmap in Hin as (a & Ha & Hin).
  rewrite list.Forall_forall in Hn. destruct (Hn a Hin) as [n Hid]. congruence.
Qed.

(** With a string id the same snapshot leaves its marker on the map. *)
Example named_id_marker_stays :
  ∃ s', onmessage [agent_named] empty_store = Returned s'
        ∧ ops s' = [Create "a1"]
        ∧ rendered s' = {["a1"]}.
Proof.
  eexists. split; [reflexivity|]. split; by vm_compute.
Qed.

(** C1 on the code: a snapshot holding one agent whose id is the number 1,
    applied to the empty store, creates the marker under the key [1] and
    destroys it in the same pass, because the sweep asks the id set for the
    string key; the rendered set is empty, not the snapshot's id set. *)
Theorem numeric_id_marker_is_swept :
  ∃ s', onmessage [agent_numbered] empty_store = Returned s'
        ∧ ops s' = [Create "1"; Destroy "1"]
        ∧ rendered s' = ∅
        ∧ list_to_set (keys_of [agent_numbered]) = ({["1"]} : gset string)
        ∧ rendered s' ≠ list_to_set (keys_of [agent_numbered]).
Proof.
  exists (outcome_store (onmessage [agent_numbered] empty_store)).
  assert (rendered (outcome_store (onmessage [agent_numbered] empty_store)) = ∅)
    as Hr by by vm_compute.
  assert (list_to_set (keys_of [agent_numbered]) = ({["1"]} : gset string))
    as Hk by by vm_compute.
  split; [reflexivity|]. split; [by vm_compute|].
  split; [done|]. split; [done|].
  rewrite Hr, Hk. set_solver.
Qed.

(** C8 on the code: applying the same one-agent snapshot with a numeric id
    a second time creates the marker again and destroys it again. *)
Theorem numeric_id_reapplied_churns :
  ∃ s1 s2, onmessage [agent_numbered] empty_store = Returned s1
           ∧ onmessage [agent_numbered] s1 = Returned s2
           ∧ ops s2 = ops s1 ++ [Create "1"; Destroy "1"]
           ∧ count_ops is_create (ops s2) = S (count_ops is_create (ops s1))
           ∧ count_ops is_destroy (ops s2) = S (count_ops is_destroy (ops s1)).
Proof.
  eexists _, _. split; [reflexivity|]. split; [reflexivity|].
  split; [by vm_compute|]. split; by vm_compute.
Qed.

(** * Further properties of the reconciler *)

(** Decidable facts about concrete inputs, settled by evaluation. *)
Ltac by_decide := apply (bool_decide_unpack _); by vm_compute.

Section ReconcilerMore.

Implicit Types (s : Store) (agents : list Agent) (a : Agent) (k : string).

Lemma upsert_lookup a s s' k :
  upsert a s = Returned s' →
  agentMarkers s' !! k
  = if bool_decide (to_key (agent_id a) = k) then Some (marker_of a)
    else agentMarkers s !! k.
Proof.
  unfold upsert, marker_of. intros Hu.
  destruct (get (agentMarkers s) (to_key (agent_id a))); simplify_eq; simpl;
    case_bool_decide; simplify_map_eq; done.
Qed.

Lemma forEach_upsert_lookup agents s s' k :
  forEach_upsert agents s = Returned s' →
  agentMarkers s' !! k
  = match latest k agents with
    | Some a => Some (marker_of a)
    | None => agentMarkers s !! k
    end.
Proof.
  revert s. induction agents as [|a agents IH]; intros s Hf; simpl in *.
  - by simplify_eq.
  - destruct (upsert a s) as [s1|s1] eqn:Hu; [|done].
    rewrite (IH s1 Hf). destruct (latest k agents); [done|].
    rewrite (upsert_lookup a s s1 k Hu). by case_bool_decide.
Qed.

Lemma latest_Some_key agents k :
  k ∈ keys_of agents → is_Some (latest k agents).
Proof.
  unfold keys_of. induction agents as [|a agents IH]; simpl.
  - by intros ?%elem_of_nil.
  - intros [->|Hin]%elem_of_cons.
    + destruct (latest _ agents); [by eexists|].
      rewrite bool_decide_eq_true_2 by done. by eexists.
    + destruct (IH Hin) as [b ->]. by eexists.
Qed.

Lemma onmessage_lookup agents s :
  plain_keys agents →
  ∃ s', onmessage agents s = Returned s'
        ∧ ∀ k, agentMarkers s' !! k
               = if bool_decide (IdStr k ∈ agent_id <$> agents)
                 then marker_of <$> latest k agents
                 else None.
Proof.
  intros Hp. unfold onmessage.
  destruct (forEach_upsert_plain agents s Hp) as (s1 & Hf & Hd). rewrite Hf.
  eexists. split; [done|]. intros k. unfold sweep, set_has_key. simpl.
  case_bool_decide as Hin.
  - destruct (latest_Some_key agents k (IdStr_in_ids _ _ Hin)) as [a Ha].
    rewrite Ha. simpl. apply map_lookup_filter_Some. split.
    + by rewrite (forEach_upsert_lookup _ _ _ _ Hf), Ha.
    + simpl. by apply bool_decide_eq_true.
  - apply map_lookup_filter_None. right. intros m _. simpl.
    by rewrite bool_decide_eq_false_2.
Qed.

(** X1. After a snapshot whose ids name no property of [Object.prototype]
    has been applied, the marker stored under a key is the one of the last
    agent of the snapshot with that key (its position and style) when the
    snapshot holds the key as a string id; no other key has a marker. *)
Theorem onmessage_marker_content agents s :
  plain_keys agents →
  ∃ s', onmessage agents s = Returned s'
        ∧ ∀ k, agentMarkers s' !! k
               = if bool_decide (IdStr k ∈ agent_id <$> agents)
                 then marker_of <$> latest k agents
                 else None.
Proof. apply onmessage_lookup. Qed.

(** X23. Full replacement: after any sequence of snapshots, the markers
    are those the last snapshot alone would leave on an empty map,
    whatever was applied before it; with string ids the rendered set is
    the last snapshot's id set. *)
Theorem last_snapshot_decides (snaps : list (list Agent)) agents s :
  plain_keys agents →
  agentMarkers (apply_all (snaps ++ [agents]) s)
  = agentMarkers (outcome_store (onmessage agents empty_store))
  ∧ (string_ids agents →
     rendered (apply_all (snaps ++ [agents]) s) = list_to_set (keys_of agents)).
Proof.
  intros Hp. unfold apply_all. rewrite foldl_app. simpl.
  set (s0 := foldl (λ st snap, outcome_store (onmessage snap st)) s snaps).
  destruct (onmessage_lookup agents s0 Hp) as (s1 & H1 & Hk1).
  destruct (onmessage_lookup agents empty_store Hp) as (s2 & H2 & Hk2).
  rewrite H1, H2. simpl. split.
  - apply map_eq. intros k. by rewrite Hk1, Hk2.
  - intros Hs. destruct (onmessage_string_ids agents s0 Hp Hs) as (s1' & H1' & Hr).
    rewrite H1 in H1'. by injection H1' as <-.
Qed.

Lemma get_Own_dom markers k m : get markers k = Own m → k ∈ dom markers.
Proof.
  unfold get. destruct (markers !! k) eqn:Hk; [|by case_bool_decide].
  intros _. apply elem_of_dom. eauto.
Qed.

Lemma get_Absent_dom markers k : get markers k = Absent → k ∉ dom markers.
Proof.
  unfold get. destruct (markers !! k) eqn:Hk; [done|].
  intros _. by apply not_elem_of_dom.
Qed.

Lemma created_app l1 l2 : created (l1 ++ l2) = created l1 ++ created l2.
Proof. apply omap_app. Qed.

Lemma destroyed_app l1 l2 : destroyed (l1 ++ l2) = destroyed l1 ++ destroyed l2.
Proof. apply omap_app. Qed.

Lemma count_created l : count_ops is_create l = length (created l).
Proof.
  unfold count_ops, created. induction l as [|o l IH]; [done|].
  rewrite filter_cons. destruct o; case_decide; simpl in *; try done;
    by rewrite IH.
Qed.

Lemma count_destroyed l : count_ops is_destroy l = length (destroyed l).
Proof.
  unfold count_ops, destroyed. induction l as [|o l IH]; [done|].
  rewrite filter_cons. destruct o; case_decide; simpl in *; try done;
    by rewrite IH.
Qed.

(** The loop over the snapshot creates a marker for each key that was not
    rendered, once, and destroys nothing. *)
Lemma forEach_upsert_ops agents s :
  plain_keys agents →
  ∃ s1 evs, forEach_upsert agents s = Returned s1
    ∧ ops s1 = ops s ++ evs
    ∧ dom (agentMarkers s1) = list_to_set (keys_of agents) ∪ dom (agentMarkers s)
    ∧ destroyed evs = []
    ∧ NoDup (created evs)
    ∧ ∀ k, k ∈ created evs ↔ k ∈ keys_of agents ∧ k ∉ dom (agentMarkers s).
Proof.
  unfold plain_keys, keys_of. revert s.
  induction agents as [|a agents IH]; intros s Hp.
  - exists s, []. simpl. rewrite app_nil_r.
    split; [done|]. split; [done|]. split; [set_solver|]. split; [done|].
    split; [constructor|].
    intros k. split; [by intros ?%elem_of_nil | by intros [?%elem_of_nil _]].
  - rewrite fmap_cons in Hp. apply Forall_cons_1 in Hp as [Ha Hp]. simpl in *.
    pose proof (get_plain (agentMarkers s) _ Ha) as Hg. unfold upsert.
    destruct (get (agentMarkers s) (to_key (agent_id a))) as [m| |] eqn:Hget;
      [|done|].
    + apply get_Own_dom in Hget.
      destruct (IH (mkStore (<[to_key (agent_id a) :=
                  mkMarker (agent_lat a) (agent_lon a) (markerStyleFor a)]>
                  (agentMarkers s)) (ops s ++ [Update (to_key (agent_id a))])) Hp)
        as (s1 & evs & -> & Ho & Hd & Hdes & Hnd & Hin).
      simpl in *. rewrite dom_insert_L in Hd, Hin.
      exists s1, (Update (to_key (agent_id a)) :: evs).
      split; [done|]. split; [by rewrite Ho, <- app_assoc|].
      split; [rewrite Hd; clear -Hget; set_solver|].
      split; [done|]. split; [done|].
      intros k. simpl. rewrite Hin. clear -Hget. set_solver.
    + apply get_Absent_dom in Hget.
      destruct (IH (mkStore (<[to_key (agent_id a) :=
                  mkMarker (agent_lat a) (agent_lon a) (markerStyleFor a)]>
                  (agentMarkers s)) (ops s ++ [Create (to_key (agent_id a))])) Hp)
        as (s1 & evs & -> & Ho & Hd & Hdes & Hnd & Hin).
      simpl in *. rewrite dom_insert_L in Hd, Hin.
      exists s1, (Create (to_key (agent_id a)) :: evs).
      split; [done|]. split; [by rewrite Ho, <- app_assoc|].
      split; [rewrite Hd; clear; set_solver|]. split; [done|]. split.
      * simpl. constructor; [|done]. rewrite Hin. intros [_ Hn]. apply Hn.
        apply elem_of_union_l. by apply elem_of_singleton.
      * intros k. simpl.
        rewrite !elem_of_cons, Hin, not_elem_of_union, not_elem_of_singleton.
        clear -Hget. destruct (decide (k = to_key (agent_id a))) as [->|];
          naive_solver.
Qed.

Lemma destroy_log (l : list (string * Marker)) :
  destroyed ((Destroy ∘ fst) <$> l) = l.*1
  ∧ created ((Destroy ∘ fst) <$> l) = [].
Proof.
  induction l as [|x l [IH1 IH2]]; [done|]. split.
  - rewrite !fmap_cons. unfold destroyed in *. cbn. f_equal. exact IH1.
  - rewrite fmap_cons. unfold created in *. cbn. exact IH2.
Qed.

(** The sweep destroys each rendered key the id set does not hold, once. *)
Lemma sweep_ops ids s :
  ∃ evs, ops (sweep ids s) = ops s ++ evs
    ∧ created evs = []
    ∧ NoDup (destroyed evs)
    ∧ ∀ k, k ∈ destroyed evs ↔ k ∈ dom (agentMarkers s) ∧ IdStr k ∉ ids.
Proof.
  unfold sweep. simpl.
  set (gone := filter (λ kv : string * Marker, set_has_key ids kv.1 = false)
                      (map_to_list (agentMarkers s))).
  exists ((Destroy ∘ fst) <$> gone).
  destruct (destroy_log gone) as [-> ->]. split; [done|]. split; [done|]. split.
  - eapply sublist_NoDup; [apply (NoDup_fst_map_to_list (agentMarkers s))|].
    apply fmap_sublist, sublist_filter.
  - intros k. rewrite list_elem_of_fmap. unfold gone, set_has_key. split.
    + intros ([k' m] & -> & Hin). apply list_elem_of_filter in Hin as [HP Hin].
      simpl in *. apply elem_of_map_to_list in Hin.
      apply bool_decide_eq_false in HP. split; [|done].
      apply elem_of_dom. eauto.
    + intros [[m Hm]%elem_of_dom Hk]. exists (k, m). split; [done|].
      apply list_elem_of_filter. split.
      * simpl. by apply bool_decide_eq_false.
      * by apply elem_of_map_to_list.
Qed.

(** X2. Minimal churn: applying a snapshot whose ids are strings that name
    no property of [Object.prototype] creates a marker exactly for the ids
    that were not rendered, destroys exactly the rendered keys the snapshot
    does not hold, each once, and only updates the rest. *)
Theorem onmessage_minimal_churn agents s :
  plain_keys agents → string_ids agents →
  ∃ s' new,
    onmessage agents s = Returned s'
    ∧ ops s' = ops s ++ new
    ∧ (∀ k, k ∈ created new ↔ k ∈ keys_of agents ∧ k ∉ rendered s)
    ∧ (∀ k, k ∈ destroyed new ↔ k ∈ rendered s ∧ k ∉ keys_of agents)
    ∧ count_ops is_create new = size (list_to_set (keys_of agents) ∖ rendered s)
    ∧ count_ops is_destroy new = size (rendered s ∖ list_to_set (keys_of agents)).
Proof.
  intros Hp Hs. unfold onmessage, rendered.
  destruct (forEach_upsert_ops agents s Hp)
    as (s1 & evs1 & -> & Ho1 & Hd1 & Hdes1 & Hnd1 & Hin1).
  destruct (sweep_ops (agent_id <$> agents) s1) as (evs2 & Ho2 & Hcr2 & Hnd2 & Hin2).
  assert (∀ k, k ∈ destroyed evs2
               ↔ k ∈ dom (agentMarkers s) ∧ k ∉ keys_of agents) as Hin2'.
  { intros k. rewrite Hin2, Hd1. split.
    - intros [Hk Hnot]. assert (k ∉ keys_of agents) as Hnk.
      { intros ?. apply Hnot. by apply key_in_string_ids. }
      split; [set_solver|done].
    - intros [Hk Hnk]. split; [set_solver|].
      intros ?. by apply Hnk, IdStr_in_ids. }
  exists (sweep (agent_id <$> agents) s1), (evs1 ++ evs2).
  split; [done|]. split; [by rewrite Ho2, Ho1, <- app_assoc|].
  rewrite created_app, destroyed_app, Hcr2, Hdes1, app_nil_r. simpl.
  split; [done|]. split; [done|].
  rewrite count_created, count_destroyed, created_app, destroyed_app,
    Hcr2, Hdes1, app_nil_r. simpl.
  rewrite <- (size_list_to_set (C:=gset string) (created evs1)) by done.
  rewrite <- (size_list_to_set (C:=gset string) (destroyed evs2)) by done.
  split; f_equal; apply set_eq; intros k; rewrite elem_of_list_to_set.
  - rewrite Hin1. set_solver.
  - rewrite Hin2'. set_solver.
Qed.

(** X3. A snapshot holding an id that names a property of
    [Object.prototype] (and is not a rendered key) makes the handler throw:
    the sweep never runs, so nothing is destroyed, every marker rendered
    before stays on the map and no marker is made for that id. *)
Theorem onmessage_inherited_key_throws agents s a :
  a ∈ agents →
  to_key (agent_id a) ∈ proto_keys →
  to_key (agent_id a) ∉ rendered s →
  ∃ s' evs, onmessage agents s = Threw s'
            ∧ ops s' = ops s ++ evs
            ∧ destroyed evs = []
            ∧ rendered s ⊆ rendered s'
            ∧ to_key (agent_id a) ∉ rendered s'.
Proof.
  unfold onmessage, rendered. intros Hin Hproto.
  assert (∀ s, to_key (agent_id a) ∉ dom (agentMarkers s) →
    ∃ s' evs, forEach_upsert agents s = Threw s'
              ∧ ops s' = ops s ++ evs ∧ destroyed evs = []
              ∧ dom (agentMarkers s) ⊆ dom (agentMarkers s')
              ∧ to_key (agent_id a) ∉ dom (agentMarkers s')) as Hloop.
  { clear s. induction agents as [|b agents IH]; intros s Hk; [by inversion Hin|].
    simpl. unfold upsert.
    destruct (get (agentMarkers s) (to_key (agent_id b))) as [m| |] eqn:Hget.
    - assert (to_key (agent_id b) ≠ to_key (agent_id a)) as Hne.
      { apply get_Own_dom in Hget. intros Heq. by rewrite Heq in Hget. }
      assert (a ∈ agents) as Hin'.
      { apply elem_of_cons in Hin as [->|]; done. }
      edestruct (IH Hin') as (s' & evs & -> & Ho & Hdes & Hsub & Hk').
      { simpl. rewrite dom_insert_L. clear -Hk Hne. set_solver. }
      simpl in *. exists s', (Update (to_key (agent_id b)) :: evs).
      split; [done|]. split; [by rewrite Ho, <- app_assoc|].
      split; [done|]. split; [|done].
      rewrite dom_insert_L in Hsub. clear -Hsub. set_solver.
    - exists s, []. rewrite app_nil_r. by repeat split.
    - assert (to_key (agent_id b) ≠ to_key (agent_id a)) as Hne.
      { intros Heq. unfold get in Hget. rewrite Heq in Hget.
        destruct (agentMarkers s !! to_key (agent_id a)); [done|].
        by rewrite bool_decide_eq_true_2 in Hget. }
      assert (a ∈ agents) as Hin'.
      { apply elem_of_cons in Hin as [->|]; done. }
      edestruct (IH Hin') as (s' & evs & -> & Ho & Hdes & Hsub & Hk').
      { simpl. rewrite dom_insert_L. clear -Hk Hne. set_solver. }
      simpl in *. exists s', (Create (to_key (agent_id b)) :: evs).
      split; [done|]. split; [by rewrite Ho, <- app_assoc|].
      split; [done|]. split; [|done].
      rewrite dom_insert_L in Hsub. clear -Hsub. set_solver. }
  intros Hk. destruct (Hloop s Hk) as (s' & evs & -> & ?). by exists s', evs.
Qed.

(** X4. The clear-agents command removes every marker, destroying each
    rendered key exactly once and creating nothing. *)
Theorem agentsClear_destroys_each_once s :
  rendered (agentsClear s) = ∅
  ∧ ∃ evs, ops (agentsClear s) = ops s ++ evs
           ∧ created evs = []
           ∧ NoDup (destroyed evs)
           ∧ (∀ k, k ∈ destroyed evs ↔ k ∈ rendered s)
           ∧ count_ops is_destroy evs = size (rendered s).
Proof.
  unfold agentsClear, rendered. simpl. split; [apply dom_empty_L|].
  eexists. split; [done|].
  destruct (destroy_log (map_to_list (agentMarkers s))) as [Hd Hc].
  rewrite count_destroyed, Hd, Hc. split; [done|].
  assert (NoDup (map_to_list (agentMarkers s)).*1) as Hnd
    by apply NoDup_fst_map_to_list.
  assert (∀ k, k ∈ (map_to_list (agentMarkers s)).*1 ↔ k ∈ dom (agentMarkers s))
    as Hin.
  { intros k. rewrite list_elem_of_fmap, elem_of_dom. split.
    - intros ([k' m] & -> & Hm). apply elem_of_map_to_list in Hm. eauto.
    - intros [m Hm]. exists (k, m). split; [done|]. by apply elem_of_map_to_list. }
  split; [done|]. split; [done|].
  rewrite <- (size_list_to_set (C:=gset string)) by done.
  f_equal. apply set_eq. intros k. by rewrite elem_of_list_to_set.
Qed.

(** X5. The marker colour tells the kind of agent: an agent has one of the
    five event colours exactly when its type is [event], whatever its stop
    flag; among the others the stopped colour marks exactly the stopped
    agents, and among the moving ones the random colour marks exactly the
    type [random].  Two agents of the same colour are both events or
    neither. *)
Theorem markerStyleFor_encoding a b :
  (agent_type a = "event" ↔ markerStyleFor a ∈ event_colours)
  ∧ (agent_type a ≠ "event" →
     (agent_stop a = true ↔ markerStyleFor a = "#0d47a1")
     ∧ (agent_stop a = false →
        (agent_type a = "random" ↔ markerStyleFor a = "#2d6cdf")))
  ∧ (markerStyleFor a = markerStyleFor b →
     (agent_type a = "event" ↔ agent_type b = "event")).
Proof.
  assert (∀ c, (agent_type c = "event" ↔ markerStyleFor c ∈ event_colours)) as Hev.
  { intros c. unfold markerStyleFor, event_colours. case_bool_decide as Ht.
    - split; [intros _|done].
      destruct (agent_phase c) as [ph|]; [|by_decide].
      repeat match goal with
             | |- context [match ?x with _ => _ end] => destruct x
             end; by_decide.
    - split; [done|]. intros Hin. exfalso.
      destruct (agent_stop c); [|case_bool_decide];
        repeat (apply elem_of_cons in Hin as [Hin|Hin]; [discriminate|]);
        by apply elem_of_nil in Hin. }
  split; [apply Hev|]. split.
  - intros Ht. unfold markerStyleFor. rewrite bool_decide_eq_false_2 by done.
    split.
    + destruct (agent_stop a); [done|]. split; [done|]. by case_bool_decide.
    + intros ->. case_bool_decide; split; done.
  - intros Heq. by rewrite !Hev, Heq.
Qed.

End ReconcilerMore.

Lemma onmessage_marker_content_witness :
  plain_keys [agent_named]
  ∧ ∃ s', onmessage [agent_named] empty_store = Returned s'
          ∧ agentMarkers s' !! "a1" = Some (marker_of agent_named).
Proof.
  assert (plain_keys [agent_named]) as Hp by (unfold plain_keys; by_decide).
  split; [exact Hp|].
  destruct (onmessage_marker_content [agent_named] empty_store Hp) as (s' & Hs' & Hk).
  exists s'. split; [exact Hs'|]. by rewrite Hk.
Defined.

Lemma onmessage_minimal_churn_witness :
  plain_keys [agent_named] ∧ string_ids [agent_named]
  ∧ ∃ s' new, onmessage [agent_named] empty_store = Returned s'
              ∧ ops s' = ops empty_store ++ new
              ∧ count_ops is_create new = 1%nat
              ∧ count_ops is_destroy new = 0%nat.
Proof.
  assert (plain_keys [agent_named]) as Hp by (unfold plain_keys; by_decide).
  assert (string_ids [agent_named]) as Hs by (repeat constructor; by eexists).
  split; [exact Hp|]. split; [exact Hs|].
  destruct (onmessage_minimal_churn [agent_named] empty_store Hp Hs)
    as (s' & new & H1 & H2 & _ & _ & Hc & Hd).
  exists s', new. split; [exact H1|]. split; [exact H2|].
  rewrite Hc, Hd. split; by vm_compute.
Defined.

Lemma onmessage_inherited_key_throws_witness :
  (agent_constructor ∈ [agent_named; agent_constructor])
  ∧ (to_key (agent_id agent_constructor) ∈ proto_keys)
  ∧ (to_key (agent_id agent_constructor) ∉ rendered empty_store)
  ∧ ∃ s', onmessage [agent_named; agent_constructor] empty_store = Threw s'
          ∧ rendered s' = {["a1"]}.
Proof.
  assert (agent_constructor ∈ [agent_named; agent_constructor]) as H1
    by (apply elem_of_cons; right; apply elem_of_cons; left; reflexivity).
  assert (to_key (agent_id agent_constructor) ∈ proto_keys) as H2 by by_decide.
  assert (to_key (agent_id agent_constructor) ∉ rendered empty_store) as H3
    by (unfold rendered; simpl; set_solver).
  split; [exact H1|]. split; [exact H2|]. split; [exact H3|].
  destruct (onmessage_inherited_key_throws _ _ _ H1 H2 H3) as (s' & evs & Hs' & _).
  exists s'. split; [exact Hs'|].
  vm_compute in Hs'. injection Hs' as <-. by vm_compute.
Defined.

(** * Further properties of the click controller *)

Section ControllerMore.

Variable parseFloat : string → jsnum.

Implicit Types (s : UI) (e : LatLng) (p : Page).

Lemma or_num_truthy x d : truthy_num d = true → truthy_num (or_num x d) = true.
Proof. intros Hd. unfold or_num. by destruct (truthy_num x) eqn:Hx. Qed.

(** X6. A tower placement click sends one add-tower request whose radius
    is the parsed radius field when that is truthy and the default 0.01
    when the field parses to [NaN] or zero; the radius sent is never [NaN]
    or zero, and the page state is unchanged. *)
Theorem tower_radius_default s e :
  infraMode s = Some Tower →
  let parsed := parseFloat (towerRadiusValue s) in
  ∃ radius,
    sent (click parseFloat e s) = [AddMobileTower (lng e) (lat e) radius]
    ∧ st (click parseFloat e s) = s
    ∧ truthy_num radius = true
    ∧ (truthy_num parsed = true → radius = parsed)
    ∧ (parsed = NaN ∨ parsed = Num 0%Qc → radius = Num (Q2Qc (1 # 100))).
Proof.
  intros Hk parsed. exists (or_num parsed (Num (Q2Qc (1 # 100)))).
  unfold click. rewrite Hk. simpl. split; [done|]. split; [done|].
  split; [by apply or_num_truthy|].
  unfold or_num. split; [by intros ->|].
  intros H. apply truthy_num_false in H. by rewrite H.
Qed.

Lemma click_dest_first s e :
  dest_first s →
  click parseFloat e s = mkResult (set_dest (Some e) s) [] true.
Proof.
  intros (Hm & Hs & Hsrc). unfold click. by rewrite Hm, Hs, Hsrc.
Qed.

(** X7. When the destination is asked for before any source (SelectingDest,
    no source, no placement mode), every map click throws before the
    preview request is built: the destination moves to the click, nothing
    is sent, the mode stays SelectingDest and the source stays unset, so
    further clicks do the same. *)
Theorem destination_first_is_stuck p (es : list LatLng) :
  dest_first (ui p) →
  let p' := run parseFloat (MapClick <$> es) p in
  dest_first (ui p')
  ∧ outbox p' = outbox p ∧ inflight p' = inflight p
  ∧ routeLine (ui p') = routeLine (ui p)
  ∧ destLatLng (ui p') = from_option Some (destLatLng (ui p)) (list.last es)
  ∧ ∀ e, threw (click parseFloat e (ui p')) = true
         ∧ sent (click parseFloat e (ui p')) = [].
Proof.
  revert p. induction es as [|e es IH]; intros p Hd; cbv zeta.
  - simpl. split; [done|]. do 4 (split; [done|]). intros e.
    by rewrite click_dest_first.
  - assert (step parseFloat (MapClick e) p
            = mkPage (set_dest (Some e) (ui p)) (inflight p) (outbox p)) as Hstep.
    { simpl. rewrite click_dest_first by done. simpl. by rewrite !app_nil_r. }
    change (run parseFloat (MapClick <$> e :: es) p)
      with (run parseFloat (MapClick <$> es) (step parseFloat (MapClick e) p)).
    rewrite Hstep.
    destruct (IH (mkPage (set_dest (Some e) (ui p)) (inflight p) (outbox p)))
      as (H1 & H2 & H3 & H4 & H5 & H6).
    { destruct Hd as (? & ? & ?). by repeat split. }
    cbv zeta in *. simpl in H2, H3, H4, H5.
    split; [done|]. split; [done|]. split; [done|]. split; [done|].
    split; [|done]. rewrite H5. destruct es as [|e' es']; [done|].
    rewrite last_cons_cons.
    destruct (list.last (e' :: es')) eqn:Hl; [done|]. by apply last_None in Hl.
Qed.

Lemma step_indicators p ev :
  ev ≠ ClearRouteBtn →
  indicators_match (ui p) → indicators_match (ui (step parseFloat ev p)).
Proof.
  intros Hev. unfold indicators_match.
  destruct ev as [e| | | |mode|v|v|i d]; simpl; try done.
  - unfold click. destruct (ui p) as [sel src dst sm dm rl mode a1 a2 tr tf].
    simpl. destruct mode as [[]|]; simpl; try done.
    destruct sel as [[]|], src, dst; simpl; try done; intros _; by (split; split).
  - destruct (inflight p !! i); [|done]. simpl. by destruct d as [[?|]| |].
Qed.

(** X8. In every state reached without the clear-route command, the
    source button is highlighted exactly in SelectingSource and the
    destination button exactly in SelectingDest. *)
Theorem indicators_follow_mode (evs : list Event) :
  ClearRouteBtn ∉ evs →
  indicators_match (ui (run parseFloat evs start)).
Proof.
  assert (∀ p, indicators_match (ui p) → ClearRouteBtn ∉ evs →
               indicators_match (ui (run parseFloat evs p))) as Hgen.
  { induction evs as [|ev evs IH]; intros p Hp Hno; [done|].
    apply not_elem_of_cons in Hno as [Hne Hno].
    apply (IH _ (step_indicators p ev (not_eq_sym Hne) Hp) Hno). }
  apply Hgen. unfold indicators_match. simpl. by split.
Qed.

(** X9. Outside the placement modes a map click throws exactly when the
    mode is SelectingDest with no source; otherwise it returns to no
    selection mode with both highlights off.  It sends nothing or exactly
    one preview request, for the current source and the clicked point, and
    it sends one exactly when a source is set and the click is resolved as
    a destination pick.  The clicked point always becomes the source or
    the destination. *)
Theorem click_selection_outcome s e :
  infraMode s = None →
  let r := click parseFloat e s in
  (threw r = true ↔ selecting s = Some SelDest ∧ sourceLatLng s = None)
  ∧ (threw r = false →
     selecting (st r) = None
     ∧ selectSourceActive (st r) = false ∧ selectDestActive (st r) = false)
  ∧ (sent r = []
     ∨ ∃ src, sourceLatLng s = Some src
              ∧ sourceLatLng (st r) = Some src ∧ destLatLng (st r) = Some e
              ∧ sent r = [RoutePreview 1 (lat src) (lng src) (lat e) (lng e)])
  ∧ (sent r ≠ [] ↔
     sourceLatLng s ≠ None
     ∧ (selecting s = Some SelDest
        ∨ (selecting s = None ∧ destLatLng s = None)))
  ∧ (sourceLatLng (st r) = Some e ∨ destLatLng (st r) = Some e)
  ∧ infraMode (st r) = None.
Proof.
  intros Hm. unfold click. rewrite Hm.
  destruct s as [sel src dst sm dm rl mode a1 a2 tr tf]. simpl in *.
  destruct sel as [[]|], src as [src|], dst as [dst|]; simpl;
    repeat split; try done; try naive_solver.
Qed.

(** X10. The clear-route command unsets mode, source, destination and
    preview, leaves the buttons' highlights as they were, and is
    idempotent; outside the placement modes the next two clicks then pick
    source and destination and request the preview for them. *)
Theorem clear_then_two_clicks s (a b : LatLng) :
  infraMode s = None →
  let c := clearRouteSelection s in
  let r1 := click parseFloat a c in
  let r2 := click parseFloat b (st r1) in
  (selecting c = None ∧ sourceLatLng c = None ∧ destLatLng c = None
   ∧ routeLine c = None
   ∧ selectSourceActive c = selectSourceActive s
   ∧ selectDestActive c = selectDestActive s)
  ∧ clearRouteSelection c = c
  ∧ (sent r1 = [] ∧ threw r1 = false ∧ threw r2 = false)
  ∧ sourceLatLng (st r2) = Some a ∧ destLatLng (st r2) = Some b
  ∧ routeLine (st r2) = None
  ∧ sent r2 = [RoutePreview 1 (lat a) (lng a) (lat b) (lng b)].
Proof.
  intros Hm. destruct s as [sel src dst sm dm rl mode a1 a2 tr tf].
  simpl in *. subst. unfold click. simpl. by repeat split.
Qed.

End ControllerMore.

Lemma tower_radius_default_witness :
  infraMode placing_tower_text = Some Tower
  ∧ sent (click parseFloat_sample pointA placing_tower_text)
    = [AddMobileTower (lng pointA) (lat pointA) (Num (Q2Qc (1 # 100)))].
Proof.
  split; [reflexivity|].
  destruct (tower_radius_default parseFloat_sample placing_tower_text pointA eq_refl)
    as (radius & Hsent & _ & _ & _ & Hdef).
  rewrite Hsent, Hdef; [reflexivity|]. left. reflexivity.
Defined.

Lemma destination_first_is_stuck_witness :
  dest_first dest_button_first
  ∧ dest_first (ui (run parseFloat_sample (MapClick <$> [pointA; pointB])
                      (mkPage dest_button_first [] []))).
Proof.
  assert (dest_first dest_button_first) as Hd by by repeat split.
  split; [exact Hd|].
  apply (destination_first_is_stuck parseFloat_sample
           (mkPage dest_button_first [] []) [pointA; pointB] Hd).
Defined.

Lemma indicators_follow_mode_witness :
  (ClearRouteBtn ∉ [SelectSourceBtn; MapClick pointA; SelectDestBtn])
  ∧ indicators_match
      (ui (run parseFloat_sample [SelectSourceBtn; MapClick pointA; SelectDestBtn] start)).
Proof.
  assert (ClearRouteBtn ∉ [SelectSourceBtn; MapClick pointA; SelectDestBtn]) as Hno.
  { intros Hin. repeat (apply elem_of_cons in Hin as [Hin|Hin]; [discriminate|]).
    by apply elem_of_nil in Hin. }
  split; [exact Hno|]. by apply indicators_follow_mode.
Defined.

Lemma click_selection_outcome_witness :
  infraMode dest_button_first = None
  ∧ threw (click parseFloat_sample pointA dest_button_first) = true.
Proof.
  split; [reflexivity|].
  apply (click_selection_outcome parseFloat_sample dest_button_first pointA eq_refl).
  by split.
Defined.

Lemma clear_then_two_clicks_witness :
  infraMode both_picked = None
  ∧ sent (click parseFloat_sample pointB
            (st (click parseFloat_sample pointA (clearRouteSelection both_picked))))
    = [RoutePreview 1 (lat pointA) (lng pointA) (lat pointB) (lng pointB)].
Proof.
  split; [reflexivity|].
  apply (clear_then_two_clicks parseFloat_sample both_picked pointA pointB eq_refl).
Defined.

(** * Properties of the other listeners *)

Section CommandFacts.

Variable parseInt : string → jsnum.
Variable parseFloat : string → jsnum.

Implicit Types (s : UI).

Lemma click_reaches_status (e : LatLng) (s : UI) :
  infraMode s = None →
  let r := click parseFloat e s in
  (threw r = true ∧ sourceLatLng s = None ∧ sourceLatLng (st r) = None)
  ∨ (threw r = false ∧ sourceLatLng (st r) ≠ None).
Proof.
  destruct s as [sel src dst sm dm rl im a1 a2 tr tf]. simpl. intros ->.
  destruct sel as [[|]|], src as [src|], dst as [dst|]; vm_compute;
    first [by left | by right].
Qed.

Lemma click_placing_flags (e : LatLng) (s : UI) k :
  infraMode s = Some k → st (click parseFloat e s) = s.
Proof. unfold click. intros ->. by destruct k. Qed.

Lemma screen_step_flags ev c : flags_ok c → flags_ok (screen_step parseFloat ev c).
Proof.
  intros (Ha & Hs & Hc). unfold flags_ok.
  destruct ev as [e| | | |mode|v|v|i d]; cbn [screen_step]; try done.
  - cbn [page buttons step ui].
    destruct (infraMode (ui (page c))) as [k|] eqn:Hm.
    + by rewrite (click_placing_flags e _ k Hm).
    + destruct (click_reaches_status e _ Hm) as [(Ht & Hsrc & Hsrc')|(Ht & Hsrc')];
        rewrite Ht.
      * rewrite Hsrc', Ha, Hs, Hsrc. simpl. split; [done|]. split; [done|].
        rewrite Hc, Hsrc. done.
      * unfold updateRouteStatus. cbn [addRoutedDisabled startEventDisabled clearRouteDisabled].
        split; [done|]. split; [done|].
        destruct (sourceLatLng (st (click parseFloat e (ui (page c))))); [|done].
        simpl. by rewrite andb_false_r.
  - destruct (clearRouteDisabled (buttons c)) eqn:Hd; [by rewrite Hd|].
    by split; [|split].
  - cbn [page buttons step]. destruct (inflight (page c) !! i); [|done].
    by destruct d as [[pts|]| |].
Qed.

Lemma screen_run_flags evs : flags_ok (screen_run parseFloat evs loaded).
Proof.
  induction evs as [|ev evs IH] using rev_ind; [by split; [|split]|].
  unfold screen_run. rewrite foldl_app. cbn [foldl]. by apply screen_step_flags.
Qed.

(** X11. Whatever happens on the page, the add-routed and the start-event
    button are disabled exactly when their listeners would send nothing
    (source or destination missing), and the clear-route button is
    disabled exactly when no source is set.  After the destination button
    and a click the destination is set and its marker is on the map, yet
    the clear-route button is still disabled and does nothing. *)
Theorem flags_follow_selection (evs : list Event) (crowd_size : string)
    (f : EventForm) :
  let c := screen_run parseFloat evs loaded in
  let s := ui (page c) in
  ((addRoutedDisabled (buttons c) = true ↔ addRoutedClick parseInt crowd_size s = [])
   ∧ (startEventDisabled (buttons c) = true
      ↔ startEventClick parseInt parseFloat f s = [])
   ∧ (clearRouteDisabled (buttons c) = true ↔ sourceLatLng s = None))
  ∧ (let c' := screen_run parseFloat dest_button_then_click loaded in
     destLatLng (ui (page c')) = Some pointB
     ∧ destMarker (ui (page c')) = Some pointB
     ∧ clearRouteDisabled (buttons c') = true
     ∧ screen_step parseFloat ClearRouteBtn c' = c').
Proof.
  intros c s. split; [|by repeat split].
  destruct (screen_run_flags evs) as (Ha & Hs & Hc). fold c in Ha, Hs, Hc. fold s in Ha, Hs, Hc.
  unfold addRoutedClick, startEventClick. rewrite Ha, Hs.
  split; [|split; [|done]];
    destruct (sourceLatLng s), (destLatLng s); simpl; split; done.
Qed.
(** X12. No number that passes through a [|| default] goes out as [NaN]
    or zero: the crowd size of add-crowd-route, the five numbers of
    start-event, the seven of start-random-traffic and the speed
    multiplier are all truthy. *)
Theorem defaulted_numbers_are_truthy s (crowd_size spd_mult : string)
    (f : EventForm) (g : RandomForm) (c : Command) :
  c ∈ addRoutedClick parseInt crowd_size s
      ++ startEventClick parseInt parseFloat f s
      ++ startRandomClick parseInt parseFloat g
      ++ [SpeedMultiplier (speedMultiplier parseFloat spd_mult)] →
  Forall (λ n, truthy_num n = true) (defaulted c).
Proof.
  unfold addRoutedClick, startEventClick, startRandomClick, speedMultiplier.
  intros Hin.
  assert (∀ x n, truthy_num (or_num x (of_Z n)) = true ∨ n = 0) as Hz.
  { intros x n. destruct (decide (n = 0)) as [->|Hn]; [by right|left].
    apply or_num_truthy. simpl. apply negb_true_iff, bool_decide_eq_false.
    intros Heq. apply (f_equal this) in Heq. simpl in Heq. by injection Heq. }
  destruct (sourceLatLng s) as [src|], (destLatLng s) as [dst|]; simpl in Hin;
    repeat (apply elem_of_cons in Hin as [->|Hin]);
    try (by apply elem_of_nil in Hin); simpl;
    repeat constructor;
    try (by apply or_num_truthy);
    try (by destruct (Hz (parseInt crowd_size) 1) as [?|?]).
Qed.

(** X13. The multiplier posted is the parsed field when truthy and 1
    otherwise.  The speed status shows an error exactly when the request
    or the parse of its body failed, the body is [null], or its
    [multiplier] is a truthy value that is no number; otherwise it shows a
    truthy number: the response's multiplier when that is a truthy number,
    and the number posted when it is missing or falsy. *)
Theorem speed_status_shows_truthy (spd_mult : string) (r : SpeedResponse) :
  let m := speedMultiplier parseFloat spd_mult in
  (truthy_num (parseFloat spd_mult) = true → m = parseFloat spd_mult)
  ∧ (truthy_num (parseFloat spd_mult) = false → m = of_Z 1)
  ∧ truthy_num m = true
  ∧ (onSpeedResponse m r = SpeedError
     ↔ r = SpeedFailed ∨ r = SpeedNullBody ∨ r = SpeedBody OtherMultiplier)
  ∧ (∀ x, onSpeedResponse m r = SpeedShown x →
          truthy_num x = true
          ∧ (r = SpeedBody (NumberMultiplier x)
             ∨ (x = m ∧ (r = SpeedBody NoMultiplier
                         ∨ ∃ y, r = SpeedBody (NumberMultiplier y)
                                ∧ truthy_num y = false)))).
Proof.
  intros m.
  assert (truthy_num m = true) as Hm.
  { unfold m, speedMultiplier, or_num.
    destruct (truthy_num (parseFloat spd_mult)) eqn:Hp; [done|by vm_compute]. }
  split; [unfold m, speedMultiplier, or_num; by intros ->|].
  split; [unfold m, speedMultiplier, or_num; by intros ->|].
  split; [done|]. clearbody m.
  split.
  { destruct r as [| |[|x|]]; cbn [onSpeedResponse]; split; try done;
      try (by intros [?|[?|?]]); auto. }
  intros x. destruct r as [| |[|y|]]; cbn [onSpeedResponse]; try done.
  - intros [= <-]. split; [done|]. right. split; [done|by left].
  - intros [= <-]. unfold or_num. destruct (truthy_num y) eqn:Hy.
    + split; [done|by left].
    + split; [done|]. right. split; [done|]. right. by exists y.
Qed.

End CommandFacts.

Lemma defaulted_numbers_are_truthy_witness :
  let c := AddCrowdRoute (of_Z 250) (lat pointA) (lng pointA) (lat pointB) (lng pointB) in
  addRoutedClick parseInt_sample "250" both_picked = [c]
  ∧ Forall (λ n, truthy_num n = true) (defaulted c).
Proof.
  split; [reflexivity|].
  apply (defaulted_numbers_are_truthy parseInt_sample parseFloat_sample
           both_picked "250" "2.5"
           (mkEventForm "250" "2.5" "0" "0" false "0")
           (mkRandomForm "0" "0" "0" "0" "0" "0" "0")).
  apply elem_of_cons. left. reflexivity.
Defined.

(** * Properties of the infrastructure refresh *)

Section InfraFacts.

Implicit Types (l : Layers) (sn : Snap).

Lemma bind_singleton {A B} (f : A → B) (xs : list A) :
  xs ≫= (λ x, [f x]) = f <$> xs.
Proof. induction xs as [|x xs IH]; [done|]. cbn. by f_equal. Qed.

Lemma towers_drawn (ts : list Entry) :
  filter (λ x, is_ring x = false) (ts ≫= draw_tower)
  = (λ t, CircleMarker (entry_lat t) (entry_lon t) 5 "#8e44ad" t) <$> ts
  ∧ filter (λ x, is_ring x = true) (ts ≫= draw_tower)
    = (λ t, Ring (entry_lat t) (entry_lon t)
                 (degreesToMetersLat (default 0%Qc (entry_radius t))) "#8e44ad")
      <$> filter (λ t, truthy_opt (entry_radius t) = true) ts.
Proof.
  induction ts as [|t ts [IH1 IH2]]; [done|].
  cbn [mbind list_bind]. rewrite !list.filter_app, IH1, IH2.
  unfold draw_tower. rewrite (filter_cons (λ t, truthy_opt (entry_radius t) = true)).
  destruct (truthy_opt (entry_radius t)) eqn:Hr.
  - rewrite decide_True by done. done.
  - rewrite decide_False by done. done.
Qed.

(** X14. A successful refresh draws exactly the response: one marker per
    gateway and per toll gate, in order, bound to its entry; one marker per
    tower, and a coverage ring for exactly the towers with a truthy radius,
    whose radius is the product of the tower's radius and 111000 as a
    double; nothing of what was drawn before survives.  For the radius
    0.07 the ring's radius is 7770 + 2^-40 (shown as 7770.000000000001);
    a tower with the radius 0 gets no ring. *)
Theorem loadInfrastructure_rebuilds sn l :
  let l' := loadInfrastructure (Some sn) l in
  let gs := default [] (gateways sn) in
  let ts := default [] (mobile_towers sn) in
  let tgs := default [] (toll_gates sn) in
  (layers_gateways l'
   = (λ g, CircleMarker (entry_lat g) (entry_lon g) 7 "#16a085" g) <$> gs
   ∧ layers_toll l'
     = (λ tg, CircleMarker (entry_lat tg) (entry_lon tg) 6 "#f1c40f" tg) <$> tgs
   ∧ filter (λ x, is_ring x = false) (layers_tower l')
     = (λ t, CircleMarker (entry_lat t) (entry_lon t) 5 "#8e44ad" t) <$> ts
   ∧ filter (λ x, is_ring x = true) (layers_tower l')
     = (λ t, Ring (entry_lat t) (entry_lon t)
                  (Double.fmul (Num (default 0%Qc (entry_radius t))) (Double.of_Z 111000))
                  "#8e44ad")
       <$> filter (λ t, truthy_opt (entry_radius t) = true) ts
   ∧ l' = loadInfrastructure (Some sn) (mkLayers [] [] []))
  ∧ filter (λ x, is_ring x = true) (layers_tower (loadInfrastructure (Some sample_snap) l))
    = [Ring (Qc_of_Z 23) (Qc_of_Z 75)
            (Num (Q2Qc (8543205347819521 # 1099511627776))) "#8e44ad"].
Proof.
  split; [|by vm_compute].
  unfold loadInfrastructure. simpl. unfold draw_gateway, draw_toll.
  rewrite !bind_singleton.
  destruct (towers_drawn (default [] (mobile_towers sn))) as [H1 H2].
  by rewrite H1, H2.
Qed.

End InfraFacts.

(** * Further properties of the density renderer *)

Section DensityMore.

Local Open Scope Qc_scope.

Implicit Types (w lo hi r x y : Qc) (tiles : list Tile) (t : Tile) (sh : Shape).

Lemma Math_round_mono x y : x ≤ y → (Math_round x ≤ Math_round y)%Z.
Proof.
  intros Hxy. unfold Math_round. apply Qfloor_resp_le.
  by apply (Qcplus_le_mono_r x y (Q2Qc (1 # 2))).
Qed.

Lemma affine_up (A D t : Qc) :
  0 ≤ D → 0 ≤ t ≤ 1 → A ≤ A + D * t ∧ A + D * t ≤ A + D.
Proof.
  intros HD [H0 H1]. split.
  - rewrite <- (Qcplus_0_r A) at 1. apply Qcplus_le_mono_l.
    rewrite <- (Qcmult_0_r D). by apply Qcmult_le_mono_nonneg_l.
  - apply Qcplus_le_mono_l. rewrite <- (Qcmult_1_r D) at 2.
    by apply Qcmult_le_mono_nonneg_l.
Qed.

Lemma affine_down (A D t : Qc) :
  D ≤ 0 → 0 ≤ t ≤ 1 → A + D ≤ A + D * t ∧ A + D * t ≤ A.
Proof.
  intros HD Ht.
  assert (0 ≤ - D) as HD'.
  { apply Qcopp_le_compat in HD. by replace (- 0) with 0 in HD by ring. }
  destruct (affine_up (- A) (- D) t HD' Ht) as [H1 H2].
  apply Qcopp_le_compat in H1, H2. split.
  - by replace (- (- A + - D)) with (A + D) in H2 by ring;
      replace (- (- A + - D * t)) with (A + D * t) in H2 by ring.
  - by replace (- - A) with A in H1 by ring;
      replace (- (- A + - D * t)) with (A + D * t) in H1 by ring.
Qed.

(** A channel moves between its two anchors. *)
Lemma round_affine (A D t : Qc) (a b : Z) :
  0 ≤ t ≤ 1 → Math_round A = a → Math_round (A + D) = b →
  (Z.min a b ≤ Math_round (A + D * t) ≤ Z.max a b)%Z.
Proof.
  intros Ht <- <-. destruct (Qclt_le_dec D 0) as [HD|HD].
  - destruct (affine_down A D t (Qclt_le_weak _ _ HD) Ht) as [H1 H2].
    apply Math_round_mono in H1, H2. lia.
  - destruct (affine_up A D t HD Ht) as [H1 H2].
    apply Math_round_mono in H1, H2. lia.
Qed.

Lemma div_unit x r : 0 < r → 0 ≤ x ≤ r → 0 ≤ x / r ≤ 1.
Proof.
  intros Hr [H0 H1]. split.
  - apply (Qcmult_le_mono_pos_r _ _ r Hr). by rewrite div_mul_cancel, Qcmult_0_l.
  - apply (Qcmult_le_mono_pos_r _ _ r Hr). by rewrite div_mul_cancel, Qcmult_1_l.
Qed.

Lemma half_pos : 0 < half.
Proof. by vm_compute. Qed.

Lemma colorForWeight_bounds (norm : Qc) (r g b : Z) :
  0 ≤ norm ≤ 1 →
  colorForWeight norm = (r, g, b) →
  (norm ≤ half → (68 ≤ r ≤ 255 ∧ 68 ≤ g ≤ 235 ∧ 59 ≤ b ≤ 68)%Z)
  ∧ (half < norm → (244 ≤ r ≤ 255 ∧ 67 ≤ g ≤ 235 ∧ 54 ≤ b ≤ 59)%Z)
  ∧ (0 ≤ r ≤ 255 ∧ 0 ≤ g ≤ 255 ∧ 0 ≤ b ≤ 255)%Z
  ∧ colorForWeight 0 = (68, 68, 68)%Z
  ∧ colorForWeight half = (255, 235, 59)%Z
  ∧ colorForWeight 1 = (244, 67, 54)%Z.
Proof.
  intros [H0 H1] Hc. unfold colorForWeight in Hc.
  assert (half + half = 1) as Hhh by (apply Qc_is_canon; reflexivity).
  destruct (decide (norm ≤ half)) as [Hle|Hgt].
  - pose proof (div_unit norm half half_pos (conj H0 Hle)) as Ht.
    injection Hc as <- <- <-.
    pose proof (round_affine (Qc_of_Z 68) (Qc_of_Z 255 - Qc_of_Z 68) _ 68 255 Ht
                  ltac:(by vm_compute) ltac:(by vm_compute)) as Hr.
    pose proof (round_affine (Qc_of_Z 68) (Qc_of_Z 235 - Qc_of_Z 68) _ 68 235 Ht
                  ltac:(by vm_compute) ltac:(by vm_compute)) as Hg.
    pose proof (round_affine (Qc_of_Z 68) (Qc_of_Z 59 - Qc_of_Z 68) _ 68 59 Ht
                  ltac:(by vm_compute) ltac:(by vm_compute)) as Hb.
    split; [intros _; lia|]. split; [by intros ?%Qclt_not_le|].
    split; [lia|]. by vm_compute.
  - apply Qcnot_le_lt in Hgt.
    assert (0 ≤ (norm - half) / half ≤ 1) as Ht.
    { apply div_unit; [apply half_pos|]. split.
      - apply (Qcplus_le_mono_r _ _ half).
        replace (norm - half + half) with norm by ring.
        rewrite Qcplus_0_l. by apply Qclt_le_weak.
      - apply (Qcplus_le_mono_r _ _ half).
        replace (norm - half + half) with norm by ring. by rewrite Hhh. }
    injection Hc as <- <- <-.
    pose proof (round_affine (Qc_of_Z 255) (Qc_of_Z 244 - Qc_of_Z 255) _ 255 244 Ht
                  ltac:(by vm_compute) ltac:(by vm_compute)) as Hr.
    pose proof (round_affine (Qc_of_Z 235) (Qc_of_Z 67 - Qc_of_Z 235) _ 235 67 Ht
                  ltac:(by vm_compute) ltac:(by vm_compute)) as Hg.
    pose proof (round_affine (Qc_of_Z 59) (Qc_of_Z 54 - Qc_of_Z 59) _ 59 54 Ht
                  ltac:(by vm_compute) ltac:(by vm_compute)) as Hb.
    split; [by intros ?%Qcle_not_lt|]. split; [intros _; lia|].
    split; [lia|]. by vm_compute.
Qed.

(** X17. The sorted weights, and with them the normalised value of any
    weight, do not depend on the order of the tiles. *)
Theorem normalized_permutation tiles1 tiles2 w :
  tiles1 ≡ₚ tiles2 →
  sorted_weights tiles1 = sorted_weights tiles2
  ∧ normalized tiles1 w = normalized tiles2 w.
Proof.
  intros Hperm.
  assert (sorted_weights tiles1 = sorted_weights tiles2) as Heq.
  { apply (StronglySorted_unique Qcle); [apply sorted_weights_sorted..|].
    by rewrite !sorted_weights_perm, Hperm. }
  split; [done|]. unfold normalized. by rewrite Heq.
Qed.

(** X15. For a normalised value in [0, 1] the three colour channels stay
    between the anchors of the half they are in, hence within 0..255, and
    the scale passes through (68,68,68) at 0, (255,235,59) at 1/2 and
    (244,67,54) at 1. *)
Theorem colorForWeight_between_anchors (norm : Qc) (r g b : Z) :
  0 ≤ norm ≤ 1 →
  colorForWeight norm = (r, g, b) →
  (norm ≤ half → (68 ≤ r ≤ 255 ∧ 68 ≤ g ≤ 235 ∧ 59 ≤ b ≤ 68)%Z)
  ∧ (half < norm → (244 ≤ r ≤ 255 ∧ 67 ≤ g ≤ 235 ∧ 54 ≤ b ≤ 59)%Z)
  ∧ (0 ≤ r ≤ 255 ∧ 0 ≤ g ≤ 255 ∧ 0 ≤ b ≤ 255)%Z
  ∧ colorForWeight 0 = (68, 68, 68)%Z
  ∧ colorForWeight half = (255, 235, 59)%Z
  ∧ colorForWeight 1 = (244, 67, 54)%Z.
Proof. apply colorForWeight_bounds. Qed.

(** What [drawHexes] computes once the layer exists: the shapes of the
    tiles, in order, against one [lo] and one range. *)
Lemma drawHexes_eq h3 tiles old :
  ∃ lo range, 0 < range
    ∧ drawHexes h3 tiles (Some old) = Some (tiles ≫= draw_tile h3 lo range).
Proof.
  destruct tiles as [|t0 ts] eqn:Ht.
  - exists 0, 1. split; [by vm_compute|done].
  - destruct (q_nonempty tiles) as (lo & hi & Hlo & Hhi & Hle); [by subst|].
    exists lo, (range_of lo hi). split; [by apply range_of_pos|].
    unfold drawHexes. subst tiles. by rewrite Hlo, Hhi.
Qed.

Lemma draw_disc_shape n tip t sh :
  sh ∈ draw_disc n tip t →
  sh = Disc (default 0 (tile_lat t)) (default 0 (tile_lon t))
            (colorForWeight n) (Qc_of_Z 50 + n * Qc_of_Z 200) tip
  ∧ has_position t = true.
Proof.
  unfold draw_disc, has_position.
  destruct (truthy_opt (tile_lat t) && truthy_opt (tile_lon t)).
  - by intros ->%list_elem_of_singleton.
  - by intros ?%elem_of_nil.
Qed.

Lemma draw_tile_shape h3 lo r t sh :
  sh ∈ draw_tile h3 lo r t →
  shape_tip sh = mkTooltip (h3_index t) (weight t)
                           (normalize lo r (weight t) * Qc_of_Z 100)
  ∧ shape_fill sh = colorForWeight (normalize lo r (weight t))
  ∧ (∀ rad, shape_radius sh = Some rad →
            rad = Qc_of_Z 50 + normalize lo r (weight t) * Qc_of_Z 200
            ∧ has_position t = true)
  ∧ (is_polygon sh = true ↔ is_Some h3 ∧ truthy_str (h3_index t) = true).
Proof.
  unfold draw_tile. destruct h3 as [f|].
  - destruct (truthy_str (h3_index t)) eqn:Hidx.
    + destruct (f _) as [poly|]; [|by intros ?%elem_of_nil].
      intros ->%list_elem_of_singleton.
      cbn [shape_tip shape_fill shape_radius is_polygon].
      split; [done|]. split; [done|]. split; [by intros ? [=]|].
      split; [intros _; by split|done].
    + intros [-> Hpos]%draw_disc_shape.
      cbn [shape_tip shape_fill shape_radius is_polygon].
      split; [done|]. split; [done|]. split; [by intros ? [= <-]|].
      split; [done|]. by intros [_ ?].
  - intros [-> Hpos]%draw_disc_shape.
    cbn [shape_tip shape_fill shape_radius is_polygon].
    split; [done|]. split; [done|]. split; [by intros ? [= <-]|].
    split; [done|]. by intros [[? ?] _].
Qed.

Lemma length_bind_at_most_one {A B} (f : A → list B) (P : A → bool) (xs : list A) :
  (∀ a, length (f a) = if P a then 1%nat else 0%nat) →
  length (xs ≫= f) = length (filter (λ a, P a = true) xs).
Proof.
  intros Hf. induction xs as [|a xs IH]; [done|].
  cbn [mbind list_bind]. rewrite length_app, IH, Hf, filter_cons.
  destruct (P a); [by rewrite decide_True|by rewrite decide_False].
Qed.

(** X19. [drawHexes] does nothing without a layer and ignores what the
    layer held.  Each tile gives at most one shape.  Without [window.h3]
    the shapes are discs, one per tile with truthy [lat] and [lon] (a tile
    on the equator or the prime meridian is skipped).  With [window.h3] a
    tile with an index gives a polygon or, when the conversion throws,
    nothing, whatever its coordinates; a tile without an index gives a disc
    if it has a position. *)
Theorem drawHexes_count (h3 : option (string → option (list (Qc * Qc)))) tiles old :
  drawHexes h3 tiles None = None
  ∧ ∃ shapes,
      drawHexes h3 tiles (Some old) = Some shapes
      ∧ drawHexes h3 tiles (Some []) = Some shapes
      ∧ (length shapes ≤ length tiles)%nat
      ∧ (h3 = None →
         length shapes = length (filter (λ t, has_position t = true) tiles)
         ∧ Forall (λ sh, is_polygon sh = false) shapes)
      ∧ (∀ f, h3 = Some f →
         length shapes
         = length (filter
             (λ t, (if truthy_str (h3_index t)
                    then bool_decide (is_Some (f (default EmptyString (h3_index t))))
                    else has_position t) = true) tiles)
         ∧ ∀ sh, sh ∈ shapes →
             (is_polygon sh = true ↔ truthy_str (tip_h3 (shape_tip sh)) = true)).
Proof.
  split; [done|].
  destruct (drawHexes_eq h3 tiles old) as (lo & range & Hr & Heq).
  exists (tiles ≫= draw_tile h3 lo range). split; [done|].
  assert (∀ t, length (draw_tile h3 lo range t)
               = if match h3 with
                    | Some f =>
                        if truthy_str (h3_index t)
                        then bool_decide (is_Some (f (default EmptyString (h3_index t))))
                        else has_position t
                    | None => has_position t
                    end then 1%nat else 0%nat) as Hlen.
  { intros t. unfold draw_tile, draw_disc, has_position.
    destruct h3 as [f|].
    - destruct (truthy_str (h3_index t)).
      + destruct (f _); [by rewrite bool_decide_eq_true_2|].
        rewrite bool_decide_eq_false_2; [done|]. by intros [? ?].
      + by destruct (truthy_opt (tile_lat t) && truthy_opt (tile_lon t)).
    - by destruct (truthy_opt (tile_lat t) && truthy_opt (tile_lon t)). }
  split; [by rewrite <- Heq|].
  split.
  { rewrite (length_bind_at_most_one _ _ _ Hlen). apply length_filter. }
  split.
  - intros ->. split; [by rewrite (length_bind_at_most_one _ _ _ Hlen)|].
    apply list.Forall_forall. intros sh Hsh.
    apply list_elem_of_bind in Hsh as (t & Hsh & _).
    destruct (draw_tile_shape _ _ _ _ _ Hsh) as (_ & _ & _ & Hpoly).
    destruct (is_polygon sh); [|done]. by destruct (proj1 Hpoly eq_refl) as [[] _].
  - intros f ->. split; [by rewrite (length_bind_at_most_one _ _ _ Hlen)|].
    intros sh Hsh. apply list_elem_of_bind in Hsh as (t & Hsh & _).
    destruct (draw_tile_shape _ _ _ _ _ Hsh) as (-> & _ & _ & Hpoly).
    simpl. rewrite Hpoly. split; [by intros [_ ?]|]. intros ?. by split.
Qed.

(** X20. A prediction changes the density layer only when the response
    carries at least one tile.  A missing or empty tile list keeps the old
    layer and reports no tiles; a failure keeps it and reports the error
    (for an HTTP error, the status code and text); with tiles the status
    reports their number, even when there is no layer to draw on. *)
Theorem runPrediction_outcome h3 (r : Fetched) (v : View) :
  (hexLayer (runPrediction h3 r v) ≠ hexLayer v →
   ∃ t ts total, r = Json (Some (t :: ts)) total)
  ∧ (∀ total, hexLayer (runPrediction h3 (Json None total) v) = hexLayer v
              ∧ hexLayer (runPrediction h3 (Json (Some []) total) v) = hexLayer v
              ∧ status (runPrediction h3 (Json None total) v) = StatusNoTiles
              ∧ status (runPrediction h3 (Json (Some []) total) v) = StatusNoTiles)
  ∧ (∀ t ts total,
       status (runPrediction h3 (Json (Some (t :: ts)) total) v)
       = StatusRendered (S (length ts)) total
       ∧ hexLayer (runPrediction h3 (Json (Some (t :: ts)) total) v)
         = drawHexes h3 (t :: ts) (hexLayer v)
       ∧ (hexLayer v = None →
          hexLayer (runPrediction h3 (Json (Some (t :: ts)) total) v) = None))
  ∧ (∀ msg, status (runPrediction h3 (NetworkError msg) v) = StatusError msg
            ∧ status (runPrediction h3 (ParseError msg) v) = StatusError msg)
  ∧ (∀ code text,
       status (runPrediction h3 (HttpError code text) v)
       = StatusError ("HTTP " +:+ pretty code +:+ ": " +:+ text)).
Proof.
  split.
  { destruct r as [msg|code text|msg|[[|t ts]|] total]; simpl; try done.
    intros _. eauto. }
  split; [done|]. split.
  { intros t ts total. simpl. repeat split; try done. by intros ->. }
  split; done.
Qed.


End DensityMore.

Lemma colorForWeight_between_anchors_witness :
  (0 ≤ half ≤ 1)%Qc
  ∧ colorForWeight half = (255, 235, 59)
  ∧ (0 ≤ 255 ≤ 255 ∧ 0 ≤ 235 ≤ 255 ∧ 0 ≤ 59 ≤ 255)%Z.
Proof.
  assert (0 ≤ half ≤ 1)%Qc as Hh by (split; by vm_compute).
  assert (colorForWeight half = (255, 235, 59)) as Hc by by vm_compute.
  split; [exact Hh|]. split; [exact Hc|].
  apply (colorForWeight_between_anchors half 255 235 59 Hh Hc).
Defined.

Lemma normalized_permutation_witness :
  tiles_0_half ≡ₚ reverse tiles_0_half
  ∧ sorted_weights tiles_0_half = sorted_weights (reverse tiles_0_half).
Proof.
  assert (tiles_0_half ≡ₚ reverse tiles_0_half) as Hp by apply perm_swap.
  split; [exact Hp|].
  apply (normalized_permutation _ _ 0%Qc Hp).
Defined.


Lemma last_snapshot_decides_witness :
  plain_keys [agent_named]
  ∧ agentMarkers (apply_all ([[agent_numbered]; []] ++ [[agent_named]]) empty_store)
    = agentMarkers (outcome_store (onmessage [agent_named] empty_store)).
Proof.
  assert (plain_keys [agent_named]) as Hp by (unfold plain_keys; by_decide).
  split; [exact Hp|].
  apply (last_snapshot_decides [[agent_numbered]; []] [agent_named] empty_store Hp).
Defined.

(** * Bounds and order of what the renderer draws *)

Ltac qc_nra :=
  unfold Qcle, Qclt, Qcminus in *;
  cbn [this Qcplus Qcmult Qcopp Q2Qc Qc_of_Z] in *;
  rewrite ?Qred_correct in *; unfold inject_Z in *; nra.

Section RenderMore.

Import Double Render.
Local Open Scope Qc_scope.

Implicit Types (w lo hi x y a b c e : Qc) (u v : jsnum) (tiles : list Tile) (t : Tile)
  (sh : Shape).

Lemma leb_neg_inf u : u ≠ NaN → leb (Infinity true) u = true.
Proof. by destruct u as [|[]|]. Qed.

Lemma leb_pos_inf u : u ≠ NaN → leb u (Infinity false) = true.
Proof. by destruct u as [|[]|]. Qed.

(** Dividing by a positive number keeps the order. *)
Lemma fdiv_pos_mono u v c :
  0 < c → leb u v = true → leb (fdiv u (Num c)) (fdiv v (Num c)) = true.
Proof.
  intros Hc Huv.
  assert (c ≠ 0) as Hc0 by (intros ->; qc_lra).
  assert (negative c = false) as Hneg.
  { unfold negative. apply bool_decide_eq_false_2. intros ?. qc_lra. }
  destruct u as [|[]|a], v as [|[]|a']; try done;
    cbn [fdiv]; rewrite ?Hneg, ?(bool_decide_eq_false_2 (c = 0)) by done;
    try done.
  - apply leb_neg_inf, round64_not_NaN.
  - apply leb_pos_inf, round64_not_NaN.
  - apply round64_mono, Qc_div_mono; [done|]. by apply bool_decide_eq_true in Huv.
Qed.

(** [Math.max(0, Math.min(1, v))] on a number. *)
Lemma clamp_Num a :
  Math_max (of_Z 0) (Math_min (of_Z 1) (Num a))
  = if decide (Qc_of_Z 1 ≤ a) then of_Z 1
    else if decide (Qc_of_Z 0 ≤ a) then Num a else of_Z 0.
Proof.
  unfold Math_max, Math_min, of_Z. cbn [leb].
  destruct (decide (Qc_of_Z 1 ≤ a)) as [H1|H1].
  - rewrite (bool_decide_eq_true_2 _ H1). by vm_compute.
  - rewrite (bool_decide_eq_false_2 _ H1). cbn [leb].
    destruct (decide (Qc_of_Z 0 ≤ a)) as [H0|H0].
    + by rewrite (bool_decide_eq_true_2 _ H0).
    + by rewrite (bool_decide_eq_false_2 _ H0).
Qed.

(** Clamping keeps the order and gives numbers between 0 and 1. *)
Lemma clamp_mono u v :
  leb u v = true →
  ∃ e1 e2, Math_max (of_Z 0) (Math_min (of_Z 1) u) = Num e1
           ∧ Math_max (of_Z 0) (Math_min (of_Z 1) v) = Num e2
           ∧ Qc_of_Z 0 ≤ e1 ∧ e1 ≤ e2 ∧ e2 ≤ Qc_of_Z 1.
Proof.
  intros Huv.
  assert (Qc_of_Z 0 ≤ Qc_of_Z 1) as H01 by by vm_compute.
  assert (Math_max (of_Z 0) (Math_min (of_Z 1) (Infinity true)) = of_Z 0) as Hm
    by done.
  assert (Math_max (of_Z 0) (Math_min (of_Z 1) (Infinity false)) = of_Z 1) as Hp
    by by vm_compute.
  destruct u as [|[]|a], v as [|[]|a']; try done;
    rewrite ?Hm, ?Hp, ?clamp_Num;
    try (apply bool_decide_eq_true in Huv);
    repeat match goal with |- context [decide ?P] => destruct (decide P) end;
    eexists _, _; (split; [reflexivity|]); (split; [reflexivity|]);
    repeat split; try done; qc_lra.
Qed.

Lemma normalize_mono lo c w1 w2 :
  0 < c → w1 ≤ w2 →
  ∃ e1 e2, normalize lo (Num c) w1 = Num e1 ∧ normalize lo (Num c) w2 = Num e2
           ∧ Qc_of_Z 0 ≤ e1 ∧ e1 ≤ e2 ∧ e2 ≤ Qc_of_Z 1.
Proof.
  intros Hc Hw. unfold normalize. apply clamp_mono, fdiv_pos_mono; [done|].
  unfold fsub. cbn [fneg fadd]. apply round64_mono. qc_lra.
Qed.

Lemma normalize_unit lo c w :
  0 < c → ∃ e, normalize lo (Num c) w = Num e ∧ Qc_of_Z 0 ≤ e ∧ e ≤ Qc_of_Z 1.
Proof.
  intros Hc.
  destruct (normalize_mono lo c w w Hc) as (e1 & e2 & H1 & H2 & ? & ? & ?); [done|].
  rewrite H1 in H2. injection H2 as <-. eauto.
Qed.

(** Scaling a number of [0, 1] by a small positive integer. *)
Lemma scale_unit e (k : Z) :
  (0 ≤ k < 2 ^ 53)%Z → Qc_of_Z 0 ≤ e → e ≤ Qc_of_Z 1 →
  ∃ y, fmul (Num e) (of_Z k) = Num y ∧ Qc_of_Z 0 ≤ y ∧ y ≤ Qc_of_Z k.
Proof.
  intros Hk H0 H1. unfold of_Z. cbn [fmul].
  apply round64_between; [| |by apply is_double_Z|apply is_double_Z; lia].
  - assert (0 <= inject_Z k)%Q by (rewrite <- (Zle_Qle 0); lia). qc_nra.
  - assert (0 <= inject_Z k)%Q by (rewrite <- (Zle_Qle 0); lia). qc_nra.
Qed.

Lemma scale_mono e1 e2 (k : Z) y1 y2 :
  (0 ≤ k)%Z → e1 ≤ e2 →
  fmul (Num e1) (of_Z k) = Num y1 → fmul (Num e2) (of_Z k) = Num y2 → y1 ≤ y2.
Proof.
  intros Hk He. unfold of_Z. cbn [fmul]. intros H1 H2.
  assert (leb (Num y1) (Num y2) = true) as Hl.
  { rewrite <- H1, <- H2. apply round64_mono.
    assert (0 <= inject_Z k)%Q by (rewrite <- (Zle_Qle 0); lia). qc_nra. }
  by apply bool_decide_eq_true in Hl.
Qed.


Lemma Qc_of_Z_sub (A B : Z) : Qc_of_Z B + - Qc_of_Z A = Qc_of_Z (B - A).
Proof.
  apply Qc_is_canon. cbn [this Qcplus Qcopp Q2Qc Qc_of_Z].
  rewrite !Qred_correct. unfold Qeq. simpl. lia.
Qed.

(** [Math.round] of a number between two integers lies between them. *)
Lemma Math_round_between x (m M : Z) :
  Qc_of_Z m ≤ x → x ≤ Qc_of_Z M →
  ∃ z : Z, Math_round (Num x) = of_Z z ∧ (m ≤ z ≤ M)%Z.
Proof.
  intros Hm HM. eexists. split; [reflexivity|].
  set (y := (x + Q2Qc (1 # 2))%Qc).
  assert (inject_Z m <= y)%Q as H1 by (subst y; qc_lra).
  assert (y < inject_Z (M + 1))%Q as H2.
  { rewrite inject_Z_plus. subst y. qc_lra. }
  split.
  - apply Qfloor_resp_le in H1. by rewrite Qfloor_Z in H1.
  - pose proof (Qfloor_le y) as Hf.
    assert (inject_Z (Qfloor y) < inject_Z (M + 1))%Q as Hlt by lra.
    rewrite <- Zlt_Qlt in Hlt. lia.
Qed.

(** A channel moves between its two anchors. *)
Lemma channel_between (A B : Z) e :
  (0 ≤ A ≤ 255)%Z → (0 ≤ B ≤ 255)%Z → Qc_of_Z 0 ≤ e → e ≤ Qc_of_Z 1 →
  ∃ z : Z,
    Math_round (fadd (of_Z A) (fmul (fsub (of_Z B) (of_Z A)) (Num e))) = of_Z z
    ∧ (Z.min A B ≤ z ≤ Z.max A B)%Z.
Proof.
  intros HA HB H0 H1. unfold of_Z at 2 3, fsub. cbn [fneg fadd].
  assert (2 ^ 53 = 9007199254740992)%Z as H53 by reflexivity.
  rewrite Qc_of_Z_sub, round64_Z by lia. cbn [fmul].
  destruct (Z.le_ge_cases A B) as [Hle|Hge].
  - destruct (round64_between (Qc_of_Z (B - A) * e) (Qc_of_Z 0) (Qc_of_Z (B - A)))
      as (y & -> & Hy0 & Hy1); [| |apply is_double_Z; lia|apply is_double_Z; lia|].
    { assert (0 <= inject_Z (B - A))%Q by (rewrite <- (Zle_Qle 0); lia). qc_nra. }
    { assert (0 <= inject_Z (B - A))%Q by (rewrite <- (Zle_Qle 0); lia). qc_nra. }
    unfold of_Z. cbn [fadd].
    destruct (round64_between (Qc_of_Z A + y) (Qc_of_Z A) (Qc_of_Z B))
      as (s & -> & Hs0 & Hs1); [| |apply is_double_Z; lia|apply is_double_Z; lia|].
    { qc_lra. }
    { rewrite <- (Qc_of_Z_sub A B) in Hy1. qc_lra. }
    destruct (Math_round_between s A B Hs0 Hs1) as (z & -> & Hz).
    exists z. split; [done|]. lia.
  - destruct (round64_between (Qc_of_Z (B - A) * e) (Qc_of_Z (B - A)) (Qc_of_Z 0))
      as (y & -> & Hy0 & Hy1); [| |apply is_double_Z; lia|apply is_double_Z; lia|].
    { assert (inject_Z (B - A) <= 0)%Q by (rewrite <- (Zle_Qle _ 0); lia). qc_nra. }
    { assert (inject_Z (B - A) <= 0)%Q by (rewrite <- (Zle_Qle _ 0); lia). qc_nra. }
    unfold of_Z. cbn [fadd].
    destruct (round64_between (Qc_of_Z A + y) (Qc_of_Z B) (Qc_of_Z A))
      as (s & -> & Hs0 & Hs1); [| |apply is_double_Z; lia|apply is_double_Z; lia|].
    { rewrite <- (Qc_of_Z_sub A B) in Hy0. qc_lra. }
    { qc_lra. }
    destruct (Math_round_between s B A Hs0 Hs1) as (z & -> & Hz).
    exists z. split; [done|]. lia.
Qed.

Lemma half_ratio x :
  Qc_of_Z 0 ≤ x → x ≤ Q2Qc (1 # 2) →
  ∃ e, fdiv (Num x) half = Num e ∧ Qc_of_Z 0 ≤ e ∧ e ≤ Qc_of_Z 1.
Proof.
  intros H0 H1. unfold half. cbn [fdiv].
  rewrite bool_decide_eq_false_2 by by vm_compute.
  assert (0 < Q2Qc (1 # 2)) as Hh by by vm_compute.
  apply round64_between; [| |by apply is_double_Z|by apply is_double_Z].
  - rewrite Qc_of_Z_0 in *. apply (Qcmult_le_mono_pos_r _ _ _ Hh).
    by rewrite div_mul_cancel, Qcmult_0_l.
  - rewrite Qc_of_Z_1. apply (Qcmult_le_mono_pos_r _ _ _ Hh).
    by rewrite div_mul_cancel, Qcmult_1_l.
Qed.

(** In doubles too the colour of a normalised value stays between the
    anchors of its half of the scale. *)
Lemma render_color_bounds e :
  Qc_of_Z 0 ≤ e → e ≤ Qc_of_Z 1 →
  ∃ r g b : Z,
    colorForWeight (Num e) = (of_Z r, of_Z g, of_Z b)
    ∧ (leb (Num e) half = true → (68 ≤ r ≤ 255 ∧ 68 ≤ g ≤ 235 ∧ 59 ≤ b ≤ 68)%Z)
    ∧ (leb (Num e) half = false → (244 ≤ r ≤ 255 ∧ 67 ≤ g ≤ 235 ∧ 54 ≤ b ≤ 59)%Z).
Proof.
  intros H0 H1. unfold colorForWeight.
  destruct (leb (Num e) half) eqn:Hh.
  - apply bool_decide_eq_true in Hh.
    destruct (half_ratio e H0 Hh) as (τ & Hτ & Ht0 & Ht1).
    cbv zeta. rewrite Hτ.
    destruct (channel_between 68 255 τ) as (r & -> & Hr); [lia..|done|done|].
    destruct (channel_between 68 235 τ) as (g & -> & Hg); [lia..|done|done|].
    destruct (channel_between 68 59 τ) as (b & -> & Hb); [lia..|done|done|].
    exists r, g, b. split; [done|]. split; [intros _; lia|done].
  - apply bool_decide_eq_false in Hh.
    assert (∃ τ, fdiv (fsub (Num e) half) half = Num τ
                 ∧ Qc_of_Z 0 ≤ τ ∧ τ ≤ Qc_of_Z 1) as (τ & Hτ & Ht0 & Ht1).
    { unfold fsub, half at 1. cbn [fneg fadd].
      destruct (round64_between (e + - Q2Qc (1 # 2)) (Qc_of_Z 0) (Q2Qc (1 # 2)))
        as (x & -> & Hx0 & Hx1);
        [qc_lra|qc_lra|by apply is_double_Z|apply round64_half|].
      by apply half_ratio. }
    cbv zeta. rewrite Hτ.
    destruct (channel_between 255 244 τ) as (r & -> & Hr); [lia..|done|done|].
    destruct (channel_between 235 67 τ) as (g & -> & Hg); [lia..|done|done|].
    destruct (channel_between 59 54 τ) as (b & -> & Hb); [lia..|done|done|].
    exists r, g, b. split; [done|]. split; [done|intros _; lia].
Qed.

(** Without overflow the range is a positive number. *)
Lemma range_of_finite tiles lo hi :
  ¬ range_overflows tiles →
  q (sorted_weights tiles) p05 = Some lo →
  q (sorted_weights tiles) p95 = Some hi →
  lo ≤ hi →
  ∃ c, range_of lo hi = Num c ∧ 0 < c.
Proof.
  intros Hno Hlo Hhi Hle.
  destruct (range_of_cases lo hi Hle) as [[_ Hov]|?]; [|done].
  destruct Hno. by exists lo, hi.
Qed.

Lemma render_shapes h3 tiles old shapes sh :
  ¬ range_overflows tiles →
  drawHexes h3 tiles (Some old) = Some shapes → sh ∈ shapes →
  ∃ lo c t, 0 < c ∧ t ∈ tiles ∧ sh ∈ draw_tile h3 lo (Num c) t.
Proof.
  intros Hno Hdraw Hsh.
  destruct tiles as [|t0 ts] eqn:Ht.
  { injection Hdraw as <-. by apply elem_of_nil in Hsh. }
  destruct (q_nonempty tiles) as (lo & hi & Hlo & Hhi & Hle); [by subst|].
  rewrite <- Ht in *.
  rewrite (render_drawHexes h3 tiles old lo hi Hlo Hhi) in Hdraw.
  injection Hdraw as <-.
  destruct (range_of_finite tiles lo hi Hno Hlo Hhi Hle) as (c & Hr & Hc).
  rewrite Hr in Hsh. apply list_elem_of_bind in Hsh as (t & Hsh & Hin).
  by exists lo, c, t.
Qed.

End RenderMore.

(** X18. As long as [hi - lo] does not overflow, every shape [drawHexes]
    draws belongs to a tile and shows that tile's weight and index, a
    percentile within [0, 100] and integer colour channels within 0..255;
    a disc has a radius within [50, 250].  This holds of the numbers the
    code computes in doubles. *)
Theorem drawn_shape_bounds (h3 : option (string → option (list (Qc * Qc))))
    (tiles : list Tile) (old shapes : list Render.Shape) (sh : Render.Shape) :
  ¬ Render.range_overflows tiles →
  Render.drawHexes h3 tiles (Some old) = Some shapes →
  sh ∈ shapes →
  (∃ t, t ∈ tiles ∧ Render.tip_weight (Render.shape_tip sh) = weight t
        ∧ Render.tip_h3 (Render.shape_tip sh) = h3_index t)
  ∧ Render.between (Double.of_Z 0) (Render.tip_percentile (Render.shape_tip sh))
                   (Double.of_Z 100)
  ∧ (∀ rad, Render.shape_radius sh = Some rad →
            Render.between (Double.of_Z 50) rad (Double.of_Z 250))
  ∧ ∃ r g b : Z,
      Render.shape_fill sh = (Double.of_Z r, Double.of_Z g, Double.of_Z b)
      ∧ (0 ≤ r ≤ 255 ∧ 0 ≤ g ≤ 255 ∧ 0 ≤ b ≤ 255)%Z.
Proof.
  intros Hno Hdraw Hsh.
  destruct (render_shapes h3 tiles old shapes sh Hno Hdraw Hsh)
    as (lo & c & t & Hc & Ht & Hin).
  destruct (render_tile_shape _ _ _ _ _ Hin) as (Htip & Hfill & Hrad).
  destruct (normalize_unit lo c (weight t) Hc) as (e & He & He0 & He1).
  rewrite He in Htip, Hfill, Hrad.
  assert (2 ^ 53 = 9007199254740992)%Z as H53 by reflexivity.
  split; [exists t; by rewrite Htip|].
  split.
  { rewrite Htip. cbn [Render.tip_percentile].
    destruct (scale_unit e 100 ltac:(lia) He0 He1) as (y & -> & Hy0 & Hy1).
    split; by apply bool_decide_eq_true. }
  split.
  { intros rad ->%Hrad.
    destruct (scale_unit e 200 ltac:(lia) He0 He1) as (y & -> & Hy0 & Hy1).
    unfold Double.of_Z. cbn [Double.fadd].
    destruct (round64_between (Qc_of_Z 50 + y) (Qc_of_Z 50) (Qc_of_Z 250))
      as (s & -> & Hs0 & Hs1); [qc_lra|qc_lra|by apply is_double_Z|by apply is_double_Z|].
    split; by apply bool_decide_eq_true. }
  rewrite Hfill.
  destruct (render_color_bounds e He0 He1) as (r & g & b & -> & Hlow & Hhigh).
  exists r, g, b. split; [done|].
  destruct (Double.leb (Num e) Render.half);
    [specialize (Hlow eq_refl)|specialize (Hhigh eq_refl)]; lia.
Qed.

(** X16. As long as [hi - lo] does not overflow, a heavier tile is never
    drawn at a smaller percentile, nor as a smaller disc, than a lighter
    one. *)
Theorem drawn_percentile_monotone (h3 : option (string → option (list (Qc * Qc))))
    (tiles : list Tile) (old shapes : list Render.Shape) (sh1 sh2 : Render.Shape) :
  ¬ Render.range_overflows tiles →
  Render.drawHexes h3 tiles (Some old) = Some shapes →
  sh1 ∈ shapes → sh2 ∈ shapes →
  (Render.tip_weight (Render.shape_tip sh1) ≤ Render.tip_weight (Render.shape_tip sh2))%Qc →
  Double.leb (Render.tip_percentile (Render.shape_tip sh1))
             (Render.tip_percentile (Render.shape_tip sh2)) = true
  ∧ ∀ r1 r2, Render.shape_radius sh1 = Some r1 → Render.shape_radius sh2 = Some r2 →
             Double.leb r1 r2 = true.
Proof.
  intros Hno Hdraw Hsh1 Hsh2 Hw.
  destruct tiles as [|t0 ts] eqn:Ht.
  { injection Hdraw as <-. by apply elem_of_nil in Hsh1. }
  destruct (q_nonempty tiles) as (lo & hi & Hlo & Hhi & Hle); [by subst|].
  rewrite <- Ht in *.
  rewrite (render_drawHexes h3 tiles old lo hi Hlo Hhi) in Hdraw.
  injection Hdraw as <-.
  destruct (range_of_finite tiles lo hi Hno Hlo Hhi Hle) as (c & Hr & Hc).
  rewrite Hr in Hsh1, Hsh2.
  apply list_elem_of_bind in Hsh1 as (t1 & Hsh1 & Hin1).
  apply list_elem_of_bind in Hsh2 as (t2 & Hsh2 & Hin2).
  destruct (render_tile_shape _ _ _ _ _ Hsh1) as (Htip1 & _ & Hrad1).
  destruct (render_tile_shape _ _ _ _ _ Hsh2) as (Htip2 & _ & Hrad2).
  rewrite Htip1, Htip2 in Hw. cbn [Render.tip_weight] in Hw.
  destruct (normalize_mono lo c _ _ Hc Hw) as (e1 & e2 & He1 & He2 & H0 & H12 & H1).
  rewrite He1 in Htip1, Hrad1. rewrite He2 in Htip2, Hrad2.
  rewrite Htip1, Htip2. cbn [Render.tip_percentile].
  assert (2 ^ 53 = 9007199254740992)%Z as H53 by reflexivity.
  assert ((Qc_of_Z 0 ≤ e2)%Qc ∧ (e1 ≤ Qc_of_Z 1)%Qc) as [H0' H1'].
  { split; qc_lra. }
  split.
  - destruct (scale_unit e1 100 ltac:(lia) H0 H1') as (y1 & Hy1 & _).
    destruct (scale_unit e2 100 ltac:(lia) H0' H1) as (y2 & Hy2 & _).
    rewrite Hy1, Hy2. apply bool_decide_eq_true.
    by apply (scale_mono e1 e2 100 y1 y2).
  - intros r1 r2 ->%Hrad1 ->%Hrad2.
    destruct (scale_unit e1 200 ltac:(lia) H0 H1') as (y1 & Hy1 & _).
    destruct (scale_unit e2 200 ltac:(lia) H0' H1) as (y2 & Hy2 & _).
    rewrite Hy1, Hy2. unfold Double.of_Z. cbn [Double.fadd].
    apply round64_mono.
    pose proof (scale_mono e1 e2 200 y1 y2 ltac:(lia) H12 Hy1 Hy2). qc_lra.
Qed.

Lemma drawn_shape_bounds_witness :
  ¬ Render.range_overflows tiles_with_equator
  ∧ ∃ shapes sh,
      Render.drawHexes None tiles_with_equator (Some []) = Some shapes
      ∧ sh ∈ shapes
      ∧ Render.between (Double.of_Z 0) (Render.tip_percentile (Render.shape_tip sh))
                       (Double.of_Z 100).
Proof.
  assert (¬ Render.range_overflows tiles_with_equator) as Hno.
  { intros (lo & hi & Hlo & Hhi & Hov). vm_compute in Hlo, Hhi.
    injection Hlo as <-. injection Hhi as <-. vm_compute in Hov. discriminate Hov. }
  split; [exact Hno|].
  destruct (Render.drawHexes None tiles_with_equator (Some []))
    as [[|sh shapes]|] eqn:Hd; [by vm_compute in Hd| |by vm_compute in Hd].
  exists (sh :: shapes), sh.
  assert (sh ∈ sh :: shapes) as Hin by (apply elem_of_cons; left; reflexivity).
  split; [reflexivity|]. split; [exact Hin|].
  exact (proj1 (proj2 (drawn_shape_bounds None tiles_with_equator []
                         (sh :: shapes) sh Hno Hd Hin))).
Defined.

Lemma drawn_percentile_monotone_witness :
  ¬ Render.range_overflows tiles_with_equator
  ∧ ∃ shapes sh1 sh2,
      Render.drawHexes None tiles_with_equator (Some []) = Some shapes
      ∧ sh1 ∈ shapes ∧ sh2 ∈ shapes
      ∧ Render.tip_weight (Render.shape_tip sh1) = Qc_of_Z 1
      ∧ Render.tip_weight (Render.shape_tip sh2) = Qc_of_Z 3
      ∧ Double.leb (Render.tip_percentile (Render.shape_tip sh1))
                   (Render.tip_percentile (Render.shape_tip sh2)) = true.
Proof.
  assert (¬ Render.range_overflows tiles_with_equator) as Hno.
  { intros (lo & hi & Hlo & Hhi & Hov). vm_compute in Hlo, Hhi.
    injection Hlo as <-. injection Hhi as <-. vm_compute in Hov. discriminate Hov. }
  split; [exact Hno|].
  destruct (Render.drawHexes None tiles_with_equator (Some []))
    as [[|sh1 [|sh2 shapes]]|] eqn:Hd;
    [by vm_compute in Hd|by vm_compute in Hd| |by vm_compute in Hd].
  pose proof Hd as Hd'. vm_compute in Hd'. injection Hd' as H1 H2 _.
  assert (Render.tip_weight (Render.shape_tip sh1) = Qc_of_Z 1) as Hw1
    by (by rewrite <- H1).
  assert (Render.tip_weight (Render.shape_tip sh2) = Qc_of_Z 3) as Hw2
    by (by rewrite <- H2).
  exists (sh1 :: sh2 :: shapes), sh1, sh2.
  assert (sh1 ∈ sh1 :: sh2 :: shapes) as Hin1 by (apply elem_of_cons; by left).
  assert (sh2 ∈ sh1 :: sh2 :: shapes) as Hin2
    by (apply elem_of_cons; right; apply elem_of_cons; by left).
  split; [reflexivity|]. split; [exact Hin1|]. split; [exact Hin2|].
  split; [exact Hw1|]. split; [exact Hw2|].
  assert (Render.tip_weight (Render.shape_tip sh1)
          ≤ Render.tip_weight (Render.shape_tip sh2))%Qc as Hw
    by (rewrite Hw1, Hw2; by vm_compute).
  exact (proj1 (drawn_percentile_monotone None tiles_with_equator [] _ sh1 sh2
                  Hno Hd Hin1 Hin2 Hw)).
Defined.

(** * The dashboard grid *)

(** X22. Whatever panels are collapsed, the left sidebar, the map and the
    right sidebar together span the twelve columns of the grid; the right
    sidebar disappears exactly when both panels are collapsed, and the map
    is never narrower than six columns and only widens as panels collapse. *)
Theorem grid_columns_add_up (analyticsCollapsed aiCollapsed : bool) :
  leftSpan + mainSpan analyticsCollapsed aiCollapsed
    + rightSpan analyticsCollapsed aiCollapsed = 12
  ∧ (rightSpan analyticsCollapsed aiCollapsed = 0
     ↔ analyticsCollapsed = true ∧ aiCollapsed = true)
  ∧ (mainSpan false false ≤ mainSpan analyticsCollapsed aiCollapsed
      ≤ mainSpan true true)%Z
  ∧ mainSpan false false = 6.
Proof.
  destruct analyticsCollapsed, aiCollapsed; vm_compute; intuition congruence.
Qed.
